(** * qxf2qif: conversion of QFX (OFX/SGML) bank exports to QIF

    A shallow embedding of [qxf2qif.cpp] and the properties of its
    transaction extraction and field mapping.

    Conventions of the embedding.
    - A C string is the list of its characters before the terminating NUL.
      A [const char *] into a NUL-terminated buffer is the suffix of the
      buffer that starts at the pointed character, so that [p + n] is
      [skipn n p], [p++] is [tl p] and, for [q] reached from [p], the
      difference [q - p] is [length p - length q].
    - A function that fills an output buffer and returns 1 or 0 returns
      [Some] of the written string or [None]; on [None] the caller's buffer
      is left as it was.
    - The output file is the list of the strings written by the successive
      [fprintf] calls, oldest first. *)

From Stdlib Require Import Ascii String List NArith ZArith Bool Arith Lia.
From Stdlib Require Import Sorted DecimalString.
Import ListNotations.

Local Open Scope list_scope.
Local Open Scope nat_scope.

(** ** Characters and C strings *)

Definition cstring := list ascii.

(** A literal of the source. *)
Definition lit (s : string) : cstring := list_ascii_of_string s.

Definition NUL : ascii := ascii_of_N 0.
Definition LF : ascii := ascii_of_N 10.
Definition CR : ascii := ascii_of_N 13.
Definition TAB : ascii := ascii_of_N 9.
Definition SPACE : ascii := ascii_of_N 32.
Definition COMMA : ascii := ascii_of_N 44.
Definition LT : ascii := ascii_of_N 60.
Definition GT : ascii := ascii_of_N 62.
Definition SLASH : ascii := ascii_of_N 47.

(** The content of a buffer seen as a C string: everything before the first
    NUL byte. *)
Fixpoint c_str (bytes : list ascii) : cstring :=
  match bytes with
  | [] => []
  | c :: rest => if Ascii.eqb c NUL then [] else c :: c_str rest
  end.

(** <ctype.h>, in the "C" locale (the program never calls setlocale). *)
Module Ctype.

Definition isupper (c : ascii) : bool :=
  let n := N_of_ascii c in (65 <=? n)%N && (n <=? 90)%N.

Definition tolower (c : ascii) : ascii :=
  if isupper c then ascii_of_N (N_of_ascii c + 32) else c.

Definition isdigit (c : ascii) : bool :=
  let n := N_of_ascii c in (48 <=? n)%N && (n <=? 57)%N.

Definition isspace (c : ascii) : bool :=
  let n := N_of_ascii c in (n =? 32)%N || ((9 <=? n)%N && (n <=? 13)%N).

End Ctype.
Import Ctype.

(** [strncasecmp s1 s2 n == 0]: the first [n] characters agree up to case,
    or both strings end, in agreement, before that. *)
Fixpoint strncasecmp (s1 s2 : cstring) (n : nat) {struct n} : bool :=
  match n with
  | 0 => true
  | S n' =>
      match s1, s2 with
      | [], [] => true
      | c1 :: s1', c2 :: s2' =>
          if Ascii.eqb (tolower c1) (tolower c2) then strncasecmp s1' s2' n'
          else false
      | _, _ => false
      end
  end.

(** [strchr s c] for a character [c] other than NUL: the suffix of [s] that
    starts at the first [c]. *)
Fixpoint strchr (s : cstring) (c : ascii) : option cstring :=
  match s with
  | [] => None
  | x :: s' => if Ascii.eqb x c then Some s else strchr s' c
  end.

(** [snprintf(buf, size, "...")] of an already formatted text: at most
    [size - 1] characters are stored. *)
Definition snprintf (size : nat) (text : cstring) : cstring :=
  firstn (size - 1) text.

(** [strncpy(dst, src, n)] into a zero-filled buffer of more than [n]
    bytes, read back as a C string. *)
Definition strncpy (src : cstring) (n : nat) : cstring := firstn n src.

(** ** The functions of qxf2qif.cpp *)

Definition MAX_FIELD : nat := 4096.

(** The loop of [strcasestr_simple]: [for (; *hay; hay++)]. *)
Fixpoint strcasestr_loop (hay needle : cstring) (nlen : nat) : option cstring :=
  match hay with
  | [] => None
  | h :: hay' =>
      if Ascii.eqb (tolower h) (tolower (hd NUL needle))
         && strncasecmp hay needle nlen
      then Some hay
      else strcasestr_loop hay' needle nlen
  end.

Definition strcasestr_simple (hay needle : cstring) : option cstring :=
  let nlen := length needle in
  if nlen =? 0 then Some hay else strcasestr_loop hay needle nlen.

(** The fallback scan of [extract_tag_content]: advance [r] to the next
    '<' or to the end of the string. *)
Fixpoint until_lt (r : cstring) : cstring :=
  match r with
  | [] => []
  | c :: r' => if Ascii.eqb c LT then r else until_lt r'
  end.

(** [size_t copylen = q - p; if (copylen >= out_len) copylen = out_len - 1;
    memcpy(out, p, copylen); out[copylen] = 0].  The source requires
    [out_len >= 1]: with [out_len = 0] the subtraction wraps around in
    [size_t] and the copy overruns [out]. *)
Definition copy_out (p q : cstring) (out_len : nat) : cstring :=
  let copylen := length p - length q in
  let copylen := if out_len <=? copylen then out_len - 1 else copylen in
  firstn copylen p.

Definition extract_tag_content (start tag : cstring) (out_len : nat)
  : option cstring :=
  let tlen := length tag in
  if 64 <=? tlen + 3 then None else
  let opentag := snprintf 64 (LT :: tag ++ [GT]) in
  let closetag := snprintf 64 (LT :: SLASH :: tag ++ [GT]) in
  let content (p : cstring) : option cstring :=
    let p := skipn (length opentag) p in
    match strcasestr_simple p closetag with
    | Some q => Some (copy_out p q out_len)
    | None => let r := until_lt p in Some (copy_out p r out_len)
    end in
  match strcasestr_simple start opentag with
  | Some p => content p
  | None =>
      match strcasestr_simple start opentag with
      | Some p => content p
      | None => None
      end
  end.

(** [trim_inplace]: the leading loop, then the trailing loop. *)
Fixpoint skip_space (p : cstring) : cstring :=
  match p with
  | [] => []
  | c :: p' => if isspace c then skip_space p' else p
  end.

(** [while (len > 0 && isspace(s[len-1])) { s[len-1] = 0; len--; }] *)
Fixpoint chop_space (s : cstring) : cstring :=
  match s with
  | [] => []
  | c :: s' =>
      match chop_space s' with
      | [] => if isspace c then [] else [c]
      | t => c :: t
      end
  end.

Definition trim_inplace (s : cstring) : cstring := chop_space (skip_space s).

Definition ofxdate_to_mmddyyyy (token : cstring) (outlen : nat)
  : option cstring :=
  if (length token <? 8) || (outlen <? 11) then None else
  let yyyy := firstn 4 token in
  let mm := firstn 2 (skipn 4 token) in
  let dd := firstn 2 (skipn 6 token) in
  if negb (forallb isdigit yyyy) then None else
  if negb (forallb isdigit mm) then None else
  if negb (forallb isdigit dd) then None else
  Some (snprintf outlen (mm ++ SLASH :: dd ++ SLASH :: yyyy)).

(** [bufend] is not used by the source and is left out. *)
Definition find_next_stmttrn (buf : cstring) : option (cstring * cstring) :=
  match strcasestr_simple buf (lit "<STMTTRN") with
  | None => None
  | Some p =>
      match strchr p GT with
      | None => None
      | Some open =>
          let open := tl open in
          match strcasestr_simple open (lit "</STMTTRN>") with
          | None => None
          | Some close =>
              Some (open, skipn (length (lit "</STMTTRN>")) close)
          end
      end
  end.

(** ** The conversion pass of [main] *)

(** The options that reach the conversion: [-m] and the [-q]/[-v] count. *)
Record Config := {
  memoFlag : bool;
  verbosity : Z
}.

(** What the pass updates: the output file, the standard output, and the
    two counters of [main].  [numTransactions] is an [int] in the source;
    the model counts in [Z] and leaves out signed overflow, which is
    undefined in C and needs more than 2^31 emitted records. *)
Record State := {
  fout : list cstring;
  stdout : list cstring;
  numTransactions : Z;
  printMemoWarning : bool
}.

Definition fprintf (st : State) (text : cstring) : State :=
  {| fout := fout st ++ [text];
     stdout := stdout st;
     numTransactions := numTransactions st;
     printMemoWarning := printMemoWarning st |}.

Definition printf (st : State) (text : cstring) : State :=
  {| fout := fout st;
     stdout := stdout st ++ [text];
     numTransactions := numTransactions st;
     printMemoWarning := printMemoWarning st |}.

(** The four buffers of one iteration. *)
Record Fields := {
  dtposted : cstring;
  trnamt : cstring;
  name : cstring;
  memo : cstring
}.

(** [char x[MAX_FIELD] = {0}; extract_tag_content(start, tag, x, sizeof(x));]
    read back as a C string: the buffer stays empty when the call returns 0. *)
Definition extract_into (start : cstring) (tag : string) : cstring :=
  match extract_tag_content start (lit tag) MAX_FIELD with
  | Some s => s
  | None => []
  end.

Definition extract_fields (block_start : cstring) : Fields :=
  {| dtposted := extract_into block_start "DTPOSTED";
     trnamt := extract_into block_start "TRNAMT";
     name := extract_into block_start "NAME";
     memo := extract_into block_start "MEMO" |}.

Definition trim_fields (f : Fields) : Fields :=
  {| dtposted := trim_inplace (dtposted f);
     trnamt := trim_inplace (trnamt f);
     name := trim_inplace (name f);
     memo := trim_inplace (memo f) |}.

(** The newline removal applied to [name] and [memo]: every CR and LF
    becomes a space. *)
Definition sanitize (s : cstring) : cstring :=
  map (fun c => if Ascii.eqb c CR || Ascii.eqb c LF then SPACE else c) s.

Definition sanitize_fields (f : Fields) : Fields :=
  {| dtposted := dtposted f;
     trnamt := trnamt f;
     name := sanitize (name f);
     memo := sanitize (memo f) |}.

(** [s[0] == 0] *)
Definition is_empty (s : cstring) : bool :=
  match s with
  | [] => true
  | _ :: _ => false
  end.

(** The first date block of the loop body: [qifdate] starts zeroed, is
    filled by a successful conversion and is emptied again when the retry
    on the first 8 characters fails. *)
Definition convert_date (dt : cstring) : cstring :=
  match ofxdate_to_mmddyyyy dt 16 with
  | Some d => d
  | None =>
      if 8 <=? length dt then
        match ofxdate_to_mmddyyyy (strncpy dt 8) 16 with
        | Some d => d
        | None => []
        end
      else []
  end.

(** The second date block, entered with an empty [qifdate]. *)
Definition fallback_date (dt : cstring) : cstring :=
  if 8 <=? length dt then
    match ofxdate_to_mmddyyyy (firstn 8 dt) 16 with
    | Some d => d
    | None => strncpy dt (16 - 1)
    end
  else strncpy dt (16 - 1).

(** The comma-stripping loop, from index [i] of [trnamt] with [ai]
    characters already stored in [amt_clean]. *)
Fixpoint amt_clean_loop (rest : cstring) (ai size : nat) : cstring :=
  match rest with
  | [] => []
  | c :: rest' =>
      if ai + 1 <? size then
        if Ascii.eqb c COMMA then amt_clean_loop rest' ai size
        else c :: amt_clean_loop rest' (S ai) size
      else []
  end.

Definition clean_amount (amt : cstring) : cstring :=
  amt_clean_loop amt 0 MAX_FIELD.

(** One iteration of [while (1)], after [find_next_stmttrn] has returned
    1 with [block_start].  Both ways out of the body set
    [scan = block_after], which the loop below does. *)
Definition loop_body (cfg : Config) (block_start : cstring) (st : State)
  : State :=
  let f := sanitize_fields (trim_fields (extract_fields block_start)) in
  let qifdate := convert_date (dtposted f) in
  if is_empty (trnamt f) then st else
  let amt_clean := clean_amount (trnamt f) in
  let qifdate :=
    if is_empty qifdate then fallback_date (dtposted f) else qifdate in
  let st :=
    if negb (is_empty qifdate) then fprintf st (lit "D" ++ qifdate ++ [LF])
    else fprintf st (lit "D" ++ [LF]) in
  let name := if is_empty (name f) then name f else sanitize (name f) in
  let st :=
    if is_empty name then fprintf st (lit "P(unknown)" ++ [LF])
    else fprintf st (lit "P" ++ name ++ [LF]) in
  let st :=
    if negb (is_empty (memo f)) then
      if memoFlag cfg then fprintf st (lit "M" ++ memo f ++ [LF])
      else {| fout := fout st;
              stdout := stdout st;
              numTransactions := numTransactions st;
              printMemoWarning := true |}
    else st in
  let st := fprintf st (lit "T" ++ amt_clean ++ [LF]) in
  let st := fprintf st (lit "C*" ++ [LF]) in
  let st := fprintf st (lit "^" ++ [LF]) in
  let st :=
    {| fout := fout st;
       stdout := stdout st;
       numTransactions := (numTransactions st + 1)%Z;
       printMemoWarning := printMemoWarning st |} in
  if (2 <=? verbosity cfg)%Z then
    let memo :=
      if negb (is_empty (memo f)) && negb (memoFlag cfg)
      then strncpy (lit "EXCLUDED") 9 else memo f in
    printf st (qifdate ++ TAB :: firstn 16 name ++ TAB :: firstn 8 memo
               ++ TAB :: lit "$" ++ amt_clean ++ [LF])
  else st.

(** The record loop.  Every iteration moves [scan] forward, so a number
    of iterations beyond the length of the buffer is never needed;
    [None] stands for a loop still running when [fuel] is used up. *)
Fixpoint main_loop (cfg : Config) (fuel : nat) (scan : cstring) (st : State)
  : option State :=
  match fuel with
  | 0 => None
  | S fuel' =>
      match find_next_stmttrn scan with
      | None => Some st
      | Some (block_start, block_after) =>
          main_loop cfg fuel' block_after (loop_body cfg block_start st)
      end
  end.

Definition init_state : State :=
  {| fout := []; stdout := []; numTransactions := 0%Z;
     printMemoWarning := false |}.

(** [main] from the header line to the end of the loop, on the bytes that
    [read_file_all] returned.  Option parsing, file names and the summary
    printed after the loop are left out. *)
Definition convert (cfg : Config) (file : list ascii) : option State :=
  let buf := c_str file in
  let st := fprintf init_state (lit "!Type:Bank" ++ [LF]) in
  main_loop cfg (S (length buf)) buf st.

(** ** The rest of [main] *)

Definition DOT : ascii := ascii_of_N 46.

Definition SW_VERSION : cstring := lit "1.01".
Definition SW_DATE : cstring := lit "2025-11-28".

(** [strrchr s c] for a character [c] other than NUL: the suffix of [s]
    that starts at the last [c]. *)
Fixpoint strrchr (s : cstring) (c : ascii) : option cstring :=
  match s with
  | [] => None
  | x :: s' =>
      match strrchr s' c with
      | Some p => Some p
      | None => if Ascii.eqb x c then Some s else None
      end
  end.

(** The two name buffers of [main] hold MAX_FIELD bytes and are not
    zero-filled.  [strncpy(buf, src, sizeof(buf)-1)] writes the first
    [MAX_FIELD - 1] bytes of [buf] and never more; it leaves a C string
    there only when [src] is shorter than [MAX_FIELD - 1].  A buffer is
    therefore its text, of at most [MAX_FIELD - 1] characters, with the
    fact of being terminated.

    [strncpy_field] is the copy of a C string into such a buffer that is
    then read to its end: [None] where the source would read past the
    text of the buffer.  [strncat(buf, src, n)] stays inside [buf] only
    when the result and its NUL fit; [strncat_field] is [None] where the
    source writes past the buffer.  The model says nothing about what
    follows a [None]. *)
Definition strncpy_field (src : cstring) : option cstring :=
  if length src <? MAX_FIELD - 1 then Some src else None.

Definition strncat_field (dest src : cstring) (n : nat) : option cstring :=
  let added := firstn n src in
  if length dest + length added + 1 <=? MAX_FIELD
  then Some (dest ++ added) else None.

(** The lines that [usage] writes to stderr. *)
Definition usage (prog : cstring) (extraLine : option cstring)
  : list cstring :=
  [prog ++ lit " Ver " ++ SW_VERSION ++ lit " " ++ SW_DATE ++ [LF];
   lit "usage: " ++ prog ++ lit " <options>" ++ [LF];
   lit "-i --input filename       input .qfx file." ++ [LF];
   lit "                          Extension will be added if not provided."
   ++ [LF];
   lit "-o --output filename      output .qif file." ++ [LF];
   lit "                          Filename will be generated from input filename"
   ++ [LF];
   lit "                          if not provided." ++ [LF];
   lit "-m --memo                 Include memos." ++ [LF];
   lit "-q --quiet                Quiet running (or decrease verbosity)."
   ++ [LF];
   lit "-v --verbose              Increase verbosity" ++ [LF]]
  ++ match extraLine with
     | Some extra => [LF :: extra ++ [LF]]
     | None => []
     end.

(** What a call of [getopt_long] with the option string "i:o:mqv" and
    the five long options of [main] does when it does not return -1: it
    returns 'i' or 'o' with [optarg] set to the argument of the option,
    or 'm', 'q' or 'v', or else, for a word that is none of these
    options or lacks its argument, it writes a diagnostic of its own to
    stderr ([opterr] is never cleared) and returns '?'. *)
Inductive GetoptResult :=
| Input (optarg : cstring)
| Output (optarg : cstring)
| Memo
| Quiet
| Verbose
| Problem (diagnostic : cstring).

Definition return_value (r : GetoptResult) : ascii :=
  match r with
  | Input _ => ascii_of_N 105
  | Output _ => ascii_of_N 111
  | Memo => ascii_of_N 109
  | Quiet => ascii_of_N 113
  | Verbose => ascii_of_N 118
  | Problem _ => ascii_of_N 63
  end.

(** [optarg] after the call, where [main] reads it. *)
Definition optarg_of (r : GetoptResult) : cstring :=
  match r with
  | Input optarg | Output optarg => optarg
  | _ => []
  end.

(** What [getopt_long] has written to stderr over the option loop. *)
Definition getopt_stderr (results : list GetoptResult) : list cstring :=
  flat_map (fun r => match r with
                     | Problem diagnostic => [diagnostic]
                     | _ => []
                     end) results.

(** The locals that the option loop sets; [options] holds [memoFlag] and
    [verbosity]; each name buffer is its text and whether it is
    terminated. *)
Record Locals := {
  inFileName : cstring;
  inTerminated : bool;
  outFileName : cstring;
  outTerminated : bool;
  usageError : bool;
  options : Config
}.

Definition initial_locals : Locals :=
  {| inFileName := []; inTerminated := true;
     outFileName := []; outTerminated := true;
     usageError := false;
     options := {| memoFlag := false; verbosity := 1 |} |}.

(** One turn of the option loop, on the value that [getopt_long]
    returned and the [optarg] it set. *)
Definition option_case (l : Locals) (opt : ascii) (optarg : cstring)
  : Locals :=
  if Ascii.eqb opt (ascii_of_N 105) then
    {| inFileName := strncpy optarg (MAX_FIELD - 1);
       inTerminated := length optarg <? MAX_FIELD - 1;
       outFileName := outFileName l; outTerminated := outTerminated l;
       usageError := usageError l; options := options l |}
  else if Ascii.eqb opt (ascii_of_N 111) then
    {| inFileName := inFileName l; inTerminated := inTerminated l;
       outFileName := strncpy optarg (MAX_FIELD - 1);
       outTerminated := length optarg <? MAX_FIELD - 1;
       usageError := usageError l; options := options l |}
  else if Ascii.eqb opt (ascii_of_N 109) then
    {| inFileName := inFileName l; inTerminated := inTerminated l;
       outFileName := outFileName l; outTerminated := outTerminated l;
       usageError := usageError l;
       options := {| memoFlag := true;
                     verbosity := verbosity (options l) |} |}
  else if Ascii.eqb opt (ascii_of_N 113) then
    {| inFileName := inFileName l; inTerminated := inTerminated l;
       outFileName := outFileName l; outTerminated := outTerminated l;
       usageError := usageError l;
       options := {| memoFlag := memoFlag (options l);
                     verbosity := (verbosity (options l) - 1)%Z |} |}
  else if Ascii.eqb opt (ascii_of_N 118) then
    {| inFileName := inFileName l; inTerminated := inTerminated l;
       outFileName := outFileName l; outTerminated := outTerminated l;
       usageError := usageError l;
       options := {| memoFlag := memoFlag (options l);
                     verbosity := (verbosity (options l) + 1)%Z |} |}
  else
    {| inFileName := inFileName l; inTerminated := inTerminated l;
       outFileName := outFileName l; outTerminated := outTerminated l;
       usageError := true; options := options l |}.

(** The option loop, over the successive results of [getopt_long] up to
    the -1 that ends it. *)
Fixpoint option_loop (l : Locals) (results : list GetoptResult) : Locals :=
  match results with
  | [] => l
  | r :: rest =>
      option_loop (option_case l (return_value r) (optarg_of r)) rest
  end.

(** The input name after the extension rule. *)
Definition input_name (inFileName : cstring) : option cstring :=
  match strchr inFileName DOT with
  | None => strncat_field inFileName (lit ".qfx") 5
  | Some _ => Some inFileName
  end.

(** The output name: [Some (Some name)], or [Some None] where [main]
    reports its internal error. *)
Definition output_name (inFileName outFileName : cstring)
  : option (option cstring) :=
  if is_empty outFileName then
    match strncpy_field inFileName with
    | None => None
    | Some out =>
        match strrchr out DOT with
        | None => Some None
        | Some cp =>
            option_map Some
              (strncat_field (firstn (length out - length cp) out)
                 (lit ".qif") 5)
        end
    end
  else
    match strchr outFileName DOT with
    | None => option_map Some (strncat_field outFileName (lit ".qif") 5)
    | Some _ => Some (Some outFileName)
    end.

(** The file system as [main] meets it: what [read_file_all] returns for
    a path (the bytes of the file, or NULL for any failure), and whether
    [fopen(path, "w")] succeeds. *)
Record Env := {
  read_file_all : cstring -> option (list ascii);
  fopen_w : cstring -> bool
}.

(** What a run of [main] leaves behind: its return value, the texts
    written to stderr and stdout, the path given to [read_file_all] if it
    was called, and the output file with its content if it was opened. *)
Record Outcome := {
  returned : Z;
  stderr : list cstring;
  printed : list cstring;
  input_file : option cstring;
  output_file : option (cstring * list cstring)
}.

(** [printf("%d", n)] *)
Definition decimal (n : Z) : cstring :=
  lit (NilZero.string_of_int (Z.to_int n)).

Definition summary (inName outName : cstring) (st : State) : list cstring :=
  [lit "Input File            : " ++ inName ++ [LF];
   lit "Output File           : " ++ outName ++ [LF];
   lit "Number of Transactions: " ++ decimal (numTransactions st) ++ [LF]].

Definition memo_warning : list cstring :=
  [lit "Memos appear in input file but are excluded from output." ++ [LF];
   lit "Use -m to include memos in output." ++ [LF]].

(** [main], given [basename(argv[0])], the results of [getopt_long] and
    the file system.  An input name left without terminator is read to
    its end on every way on from the two first tests (by [strchr] when
    it holds no dot, and otherwise by [strrchr] on its copy or by
    [fopen]); an output name left without terminator is read to its end
    by [strchr] when it holds no dot and by [fopen] otherwise. *)
Definition main (prog : cstring) (results : list GetoptResult)
  (env : Env) : option Outcome :=
  let l := option_loop initial_locals results in
  let diagnostics := getopt_stderr results in
  if usageError l then
    Some {| returned := -1; stderr := diagnostics ++ usage prog None;
            printed := []; input_file := None; output_file := None |}
  else if is_empty (inFileName l) then
    Some {| returned := -2;
            stderr :=
              diagnostics
              ++ usage prog (Some (lit "Input filename required"));
            printed := []; input_file := None; output_file := None |}
  else if negb (inTerminated l) then None
  else
    match input_name (inFileName l) with
    | None => None
    | Some inName =>
        match (if outTerminated l
                  || existsb (Ascii.eqb DOT) (outFileName l)
               then output_name inName (outFileName l) else None) with
        | None => None
        | Some None =>
            Some {| returned := -3;
                    stderr :=
                      diagnostics
                      ++ usage prog
                           (Some (lit "Internal error with file names"));
                    printed := []; input_file := None;
                    output_file := None |}
        | Some (Some outName) =>
            match read_file_all env inName with
            | None =>
                Some {| returned := -4;
                        stderr :=
                          diagnostics
                          ++ usage (lit "Error reading input file") None;
                        printed := []; input_file := Some inName;
                        output_file := None |}
            | Some bytes =>
                if negb (outTerminated l) then None
                else if negb (fopen_w env outName) then
                  Some {| returned := -5;
                          stderr :=
                            diagnostics
                            ++ usage (lit "Error opening output file") None;
                          printed := []; input_file := Some inName;
                          output_file := None |}
                else
                  match convert (options l) bytes with
                  | None => None
                  | Some st =>
                      Some {| returned := 0;
                              stderr :=
                                diagnostics
                                ++ (if printMemoWarning st
                                    then memo_warning else []);
                              printed :=
                                stdout st
                                ++ (if (1 <=? verbosity (options l))%Z
                                    then summary inName outName st
                                    else []);
                              input_file := Some inName;
                              output_file := Some (outName, fout st) |}
                  end
            end
        end
    end.

(** ** Occurrences of a marker *)

(** Equality of two strings up to the case of ASCII letters. *)
Definition ci_eq (a b : cstring) : Prop := map tolower a = map tolower b.

(** [s] starts with [needle], up to case. *)
Definition starts_with_ci (needle s : cstring) : Prop :=
  exists m post, s = m ++ post /\ ci_eq m needle.

(** [needle] occurs somewhere in [s], up to case. *)
Definition occurs_ci (needle s : cstring) : Prop :=
  exists pre q, s = pre ++ q /\ starts_with_ci needle q.

(** [q] is the suffix of [hay] at the first occurrence of [needle]. *)
Definition first_occurrence (needle hay q : cstring) : Prop :=
  exists pre,
    hay = pre ++ q /\ starts_with_ci needle q /\
    forall pre' q', hay = pre' ++ q' -> starts_with_ci needle q' ->
                    length pre <= length pre'.

(** The markers of a tag, as [extract_tag_content] formats them. *)
Definition open_marker (tag : cstring) : cstring := LT :: tag ++ [GT].
Definition close_marker (tag : cstring) : cstring :=
  LT :: SLASH :: tag ++ [GT].

(** [s] begins with the character [c]. *)
Definition begins_with (c : ascii) (s : cstring) : Prop :=
  exists rest, s = c :: rest.

(** How a field relates to the text from the content start of its record
    to the end of the buffer: empty when the open marker occurs nowhere in
    that text, and otherwise what extraction yields at the first occurrence
    of the marker, wherever that is. *)
Definition searched_to_end (block_start : cstring) (tag : string)
  (field : cstring) : Prop :=
  (~ occurs_ci (open_marker (lit tag)) block_start -> field = []) /\
  (forall q, first_occurrence (open_marker (lit tag)) block_start q ->
             field = extract_into q tag).

(** ** Records of a run *)

(** The span that the record locator reports, in terms of the text of
    [buf]: [p] is the suffix at the first "<STMTTRN", [attrs] runs from
    there to the first '>' excluded, [block_start] is what follows that
    '>', [cl] is the first closing marker in [block_start] and
    [block_after] is what follows it. *)
Definition record_span (buf block_start block_after : cstring) : Prop :=
  exists p attrs content cl,
    first_occurrence (lit "<STMTTRN") buf p /\
    p = attrs ++ GT :: block_start /\ ~ In GT attrs /\
    block_start = content ++ cl ++ block_after /\
    ci_eq cl (lit "</STMTTRN>") /\
    first_occurrence (lit "</STMTTRN>") block_start (cl ++ block_after).

(** The three ways in which no span is found. *)
Definition no_record_span (buf : cstring) : Prop :=
  ~ occurs_ci (lit "<STMTTRN") buf \/
  (exists p, first_occurrence (lit "<STMTTRN") buf p /\ ~ In GT p) \/
  (exists p attrs block_start,
      first_occurrence (lit "<STMTTRN") buf p /\
      p = attrs ++ GT :: block_start /\ ~ In GT attrs /\
      ~ occurs_ci (lit "</STMTTRN>") block_start).

(** The text of a record: from its content start to its closing marker. *)
Definition record_slice (block_start block_after : cstring) : cstring :=
  firstn (length block_start - length block_after
          - length (lit "</STMTTRN>")) block_start.

(** The fields as the loop body uses them, after trimming and newline
    removal. *)
Definition fields_of (block_start : cstring) : Fields :=
  sanitize_fields (trim_fields (extract_fields block_start)).

(** The content starts of the records that the loop visits from [scan],
    in the order of the visits. *)
Fixpoint scan_records (fuel : nat) (scan : cstring) : list cstring :=
  match fuel with
  | 0 => []
  | S fuel' =>
      match find_next_stmttrn scan with
      | None => []
      | Some (block_start, block_after) =>
          block_start :: scan_records fuel' block_after
      end
  end.

Definition records (buf : cstring) : list cstring :=
  scan_records (S (length buf)) buf.

(** A record passes the skip rule. *)
Definition emitted (block_start : cstring) : bool :=
  negb (is_empty (trnamt (fields_of block_start))).

Definition strip_commas (s : cstring) : cstring :=
  filter (fun c => negb (Ascii.eqb c COMMA)) s.

(** The date of the D line. *)
Definition qif_date (dt : cstring) : cstring :=
  match ofxdate_to_mmddyyyy dt 16 with
  | Some d => d
  | None => firstn 15 dt
  end.

Definition payee (nm : cstring) : cstring :=
  if is_empty nm then lit "(unknown)" else nm.

Definition line (prefix : string) (text : cstring) : cstring :=
  lit prefix ++ text ++ [LF].

Definition memo_lines (cfg : Config) (f : Fields) : list cstring :=
  if memoFlag cfg && negb (is_empty (memo f))
  then [line "M" (memo f)] else [].

(** The lines of one emitted record. *)
Definition record_block (cfg : Config) (f : Fields) : list cstring :=
  [line "D" (qif_date (dtposted f)); line "P" (payee (name f))]
  ++ memo_lines cfg f
  ++ [line "T" (strip_commas (trnamt f)); line "C*" []; line "^" []].

(** What one visited record adds to the output file. *)
Definition output_of (cfg : Config) (block_start : cstring) : list cstring :=
  if emitted block_start then record_block cfg (fields_of block_start)
  else [].

Definition header : cstring := line "!Type:Bank" [].

(** An emitted record whose memo is left out of the output. *)
Definition suppresses (cfg : Config) (block_start : cstring) : bool :=
  emitted block_start
  && negb (is_empty (memo (fields_of block_start)))
  && negb (memoFlag cfg).

(** The pointers [recs] lie in [buf], each further in it than the ones
    before (a pointer further in the buffer is a shorter suffix). *)
Definition in_input_order (buf : cstring) (recs : list cstring) : Prop :=
  Forall (fun p => exists pre, buf = pre ++ p) recs /\
  StronglySorted (fun p q => length q < length p) recs.

(** The state in which the loop is entered. *)
Definition start_state : State :=
  fprintf init_state (lit "!Type:Bank" ++ [LF]).

(** The line printed on stdout for an emitted record when the verbosity
    is 2 or more. *)
Definition trace_line (cfg : Config) (f : Fields) : cstring :=
  qif_date (dtposted f) ++ TAB :: firstn 16 (name f) ++ TAB ::
  firstn 8 (if negb (is_empty (memo f)) && negb (memoFlag cfg)
            then lit "EXCLUDED" else memo f)
  ++ TAB :: lit "$" ++ strip_commas (trnamt f) ++ [LF].

(** What one visited record adds to stdout. *)
Definition trace_of (cfg : Config) (block_start : cstring) : list cstring :=
  if emitted block_start && (2 <=? verbosity cfg)%Z
  then [trace_line cfg (fields_of block_start)] else [].

(** A text that begins with the letter M. *)
Definition is_memo_line (l : cstring) : bool :=
  match l with
  | c :: _ => Ascii.eqb c (ascii_of_N 77)
  | [] => false
  end.

(** What the newline removal puts for the character [c]. *)
Definition on_one_line (c : ascii) : ascii :=
  if Ascii.eqb c CR || Ascii.eqb c LF then SPACE else c.

(** The lines of a text: what stands between its line feeds, and after
    the last one when the text does not end in a line feed. *)
Fixpoint split_lines (s : cstring) : list cstring :=
  match s with
  | [] => []
  | c :: rest =>
      if Ascii.eqb c LF then [] :: split_lines rest
      else match split_lines rest with
           | [] => [[c]]
           | l :: ls => (c :: l) :: ls
           end
  end.

(** The lines of the file that holds the texts [writes], in the order
    in which they were written. *)
Definition file_lines (writes : list cstring) : list cstring :=
  split_lines (concat writes).

(** The lines that one visited record adds to the output file. *)
Definition block_lines (cfg : Config) (block_start : cstring)
  : list cstring :=
  file_lines (output_of cfg block_start).

(** The option letters that the switch of [main] knows. *)
Definition known_option (opt : ascii) : bool :=
  existsb (Ascii.eqb opt) (lit "iomqv").

(** The number of results of [getopt_long] that are the letter [opt]. *)
Definition count_option (opt : ascii) (results : list GetoptResult) : Z :=
  Z.of_nat (length (filter (fun r => Ascii.eqb (return_value r) opt) results)).

(** A result that the switch of [main] takes as a usage error. *)
Definition is_usage_error (r : GetoptResult) : bool :=
  negb (known_option (return_value r)).

(** The ways through [main] after the option loop, with what each one
    leaves behind. *)
Inductive main_path (prog : cstring) (env : Env) (l : Locals)
  : Outcome -> Prop :=
| path_usage diagnostics :
    usageError l = true ->
    main_path prog env l
      {| returned := -1; stderr := diagnostics ++ usage prog None;
         printed := []; input_file := None; output_file := None |}
| path_no_input :
    usageError l = false -> inFileName l = [] ->
    main_path prog env l
      {| returned := -2;
         stderr := usage prog (Some (lit "Input filename required"));
         printed := []; input_file := None; output_file := None |}
| path_internal inName :
    usageError l = false -> inFileName l <> [] ->
    input_name (inFileName l) = Some inName ->
    output_name inName (outFileName l) = Some None ->
    main_path prog env l
      {| returned := -3;
         stderr := usage prog (Some (lit "Internal error with file names"));
         printed := []; input_file := None; output_file := None |}
| path_unreadable inName outName :
    usageError l = false -> inFileName l <> [] ->
    input_name (inFileName l) = Some inName ->
    output_name inName (outFileName l) = Some (Some outName) ->
    read_file_all env inName = None ->
    main_path prog env l
      {| returned := -4;
         stderr := usage (lit "Error reading input file") None;
         printed := []; input_file := Some inName; output_file := None |}
| path_unwritable inName outName bytes :
    usageError l = false -> inFileName l <> [] ->
    input_name (inFileName l) = Some inName ->
    output_name inName (outFileName l) = Some (Some outName) ->
    read_file_all env inName = Some bytes ->
    fopen_w env outName = false ->
    main_path prog env l
      {| returned := -5;
         stderr := usage (lit "Error opening output file") None;
         printed := []; input_file := Some inName; output_file := None |}
| path_done inName outName bytes st :
    usageError l = false -> inFileName l <> [] ->
    input_name (inFileName l) = Some inName ->
    output_name inName (outFileName l) = Some (Some outName) ->
    read_file_all env inName = Some bytes ->
    fopen_w env outName = true ->
    convert (options l) bytes = Some st ->
    main_path prog env l
      {| returned := 0;
         stderr := if printMemoWarning st then memo_warning else [];
         printed :=
           stdout st
           ++ (if (1 <=? verbosity (options l))%Z
               then summary inName outName st else []);
         input_file := Some inName;
         output_file := Some (outName, fout st) |}.

(** ** Properties of the search functions *)

Ltac lit_nonempty := let H := fresh in intro H; discriminate H.

Lemma ci_eq_length a b : ci_eq a b -> length a = length b.
Proof.
  unfold ci_eq; intro H.
  rewrite <- (length_map tolower a), H. apply length_map.
Qed.

Lemma starts_with_ci_nil needle : needle <> [] -> ~ starts_with_ci needle [].
Proof.
  intros Hn (m & post & Heq & Hci).
  symmetry in Heq. apply app_eq_nil in Heq as [-> _].
  destruct needle; [congruence | discriminate Hci].
Qed.

Lemma starts_with_ci_cons c needle h s :
  starts_with_ci (c :: needle) (h :: s) <->
  tolower h = tolower c /\ starts_with_ci needle s.
Proof.
  split.
  - intros (m & post & Heq & Hci). destruct m as [|x m].
    + discriminate Hci.
    + simpl in Heq. injection Heq as -> ->. unfold ci_eq in Hci; simpl in Hci.
      injection Hci as Hx Hm. split; [exact Hx|]. now exists m, post.
  - intros [Hh (m & post & -> & Hci)].
    exists (h :: m), post. split; [reflexivity|].
    unfold ci_eq in *; simpl. now rewrite Hh, Hci.
Qed.

Lemma strncasecmp_spec needle : forall hay,
  strncasecmp hay needle (length needle) = true <-> starts_with_ci needle hay.
Proof.
  induction needle as [|c needle IH]; intro hay.
  - simpl. split; [|reflexivity]. intros _. now exists [], hay.
  - destruct hay as [|h hay]; simpl.
    + split; [discriminate|]. intro H.
      now apply starts_with_ci_nil in H.
    + rewrite starts_with_ci_cons.
      destruct (Ascii.eqb_spec (tolower h) (tolower c)) as [E|E].
      * rewrite IH. tauto.
      * split; [discriminate | tauto].
Qed.

(** The first-character test of [strcasestr_simple] never rejects a
    position that [strncasecmp] accepts. *)
Lemma strcasestr_guard h hay needle :
  needle <> [] ->
  Ascii.eqb (tolower h) (tolower (hd NUL needle))
  && strncasecmp (h :: hay) needle (length needle)
  = strncasecmp (h :: hay) needle (length needle).
Proof.
  intro Hn. destruct needle as [|c needle]; [congruence|].
  simpl. now destruct (Ascii.eqb (tolower h) (tolower c)).
Qed.

Lemma strcasestr_loop_None needle : needle <> [] -> forall hay,
  strcasestr_loop hay needle (length needle) = None <->
  ~ occurs_ci needle hay.
Proof.
  intros Hn hay; induction hay as [|h hay IH]; simpl.
  - split; [|reflexivity]. intros _ (pre & q & Heq & Hq).
    symmetry in Heq. apply app_eq_nil in Heq as [_ ->].
    now apply starts_with_ci_nil in Hq.
  - rewrite strcasestr_guard by assumption.
    destruct (strncasecmp (h :: hay) needle (length needle)) eqn:E.
    + split; [discriminate|]. intro H; exfalso; apply H.
      exists [], (h :: hay). split; [reflexivity|].
      now apply strncasecmp_spec.
    + rewrite IH. split; intros H (pre & q & Heq & Hq); apply H.
      * destruct pre as [|x pre]; simpl in Heq.
        -- subst q. apply strncasecmp_spec in Hq. congruence.
        -- injection Heq as _ ->. now exists pre, q.
      * exists (h :: pre), q. split; [now rewrite Heq|assumption].
Qed.

Lemma strcasestr_loop_Some needle : needle <> [] -> forall hay q,
  strcasestr_loop hay needle (length needle) = Some q <->
  first_occurrence needle hay q.
Proof.
  intros Hn hay; induction hay as [|h hay IH]; intro q; simpl.
  - split; [discriminate|]. intros (pre & Heq & Hq & _).
    symmetry in Heq. apply app_eq_nil in Heq as [_ ->].
    now apply starts_with_ci_nil in Hq.
  - rewrite strcasestr_guard by assumption.
    destruct (strncasecmp (h :: hay) needle (length needle)) eqn:E.
    + apply strncasecmp_spec in E. split.
      * intros [= <-]. exists []. repeat split; auto. simpl; lia.
      * intros (pre & Heq & Hq & Hmin).
        specialize (Hmin [] (h :: hay) eq_refl E).
        destruct pre; [simpl in Heq; now subst | simpl in Hmin; lia].
    + rewrite IH. split.
      * intros (pre & -> & Hq & Hmin). exists (h :: pre).
        repeat split; auto. intros pre' q' Heq Hq'.
        destruct pre' as [|x pre']; simpl in Heq.
        -- subst q'. apply strncasecmp_spec in Hq'. congruence.
        -- injection Heq as _ Heq. simpl.
           specialize (Hmin pre' q' Heq Hq'). lia.
      * intros (pre & Heq & Hq & Hmin).
        destruct pre as [|x pre]; simpl in Heq.
        -- subst q. apply strncasecmp_spec in Hq. congruence.
        -- injection Heq as _ ->. exists pre. repeat split; auto.
           intros pre' q' Heq Hq'.
           specialize (Hmin (h :: pre') q' (f_equal (cons h) Heq) Hq').
           simpl in Hmin. lia.
Qed.

Lemma strcasestr_simple_None needle hay :
  needle <> [] ->
  strcasestr_simple hay needle = None <-> ~ occurs_ci needle hay.
Proof.
  intro Hn. unfold strcasestr_simple.
  destruct needle as [|c needle]; [congruence|].
  change (length (c :: needle) =? 0) with false; cbv iota.
  now apply strcasestr_loop_None.
Qed.

Lemma strcasestr_simple_Some needle hay q :
  needle <> [] ->
  strcasestr_simple hay needle = Some q <-> first_occurrence needle hay q.
Proof.
  intro Hn. unfold strcasestr_simple.
  destruct needle as [|c needle]; [congruence|].
  change (length (c :: needle) =? 0) with false; cbv iota.
  now apply strcasestr_loop_Some.
Qed.

Lemma strchr_Some c : forall s q,
  strchr s c = Some q <->
  exists pre rest, s = pre ++ c :: rest /\ ~ In c pre /\ q = c :: rest.
Proof.
  induction s as [|x s IH]; intro q; simpl.
  - split; [discriminate|]. intros (pre & rest & Heq & _).
    now destruct pre.
  - destruct (Ascii.eqb_spec x c) as [->|Hx].
    + split.
      * intros [= <-]. exists [], s. auto.
      * intros (pre & rest & Heq & Hpre & ->). destruct pre as [|y pre].
        -- simpl in Heq. congruence.
        -- injection Heq as -> _. exfalso. apply Hpre. now left.
    + rewrite IH. split.
      * intros (pre & rest & -> & Hpre & ->). exists (x :: pre), rest.
        repeat split; auto. simpl. intros [E|E]; auto.
      * intros (pre & rest & Heq & Hpre & ->). destruct pre as [|y pre].
        -- simpl in Heq. congruence.
        -- injection Heq as _ ->. exists pre, rest.
           repeat split; auto. intro E. apply Hpre. now right.
Qed.

Lemma strchr_None c : forall s, strchr s c = None <-> ~ In c s.
Proof.
  induction s as [|x s IH]; simpl.
  - tauto.
  - destruct (Ascii.eqb_spec x c) as [->|Hx].
    + split; [discriminate | tauto].
    + rewrite IH. tauto.
Qed.

Lemma skipn_ci_marker cl marker rest :
  ci_eq cl marker -> skipn (length marker) (cl ++ rest) = rest.
Proof.
  intro H. rewrite <- (ci_eq_length _ _ H).
  rewrite skipn_app, skipn_all, Nat.sub_diag. reflexivity.
Qed.

(** ** Tag extraction *)

Lemma until_lt_split : forall text rest,
  ~ In LT text -> rest = [] \/ begins_with LT rest ->
  until_lt (text ++ rest) = rest.
Proof.
  induction text as [|c text IH]; intros rest Hno Hrest; simpl.
  - destruct Hrest as [-> | (r & ->)]; reflexivity.
  - destruct (Ascii.eqb_spec c LT) as [->|Hc].
    + exfalso. apply Hno. now left.
    + apply IH; [|assumption]. intro H. apply Hno. now right.
Qed.

Lemma copy_out_app text rest out_len :
  0 < out_len ->
  copy_out (text ++ rest) rest out_len = firstn (out_len - 1) text.
Proof.
  intro H. unfold copy_out. rewrite length_app.
  replace (length text + length rest - length rest) with (length text) by lia.
  destruct (Nat.leb_spec out_len (length text)) as [L|L].
  - rewrite firstn_app.
    replace (out_len - 1 - length text) with 0 by lia.
    simpl. apply app_nil_r.
  - rewrite firstn_app, Nat.sub_diag, firstn_all. simpl. rewrite app_nil_r.
    symmetry. apply firstn_all2. lia.
Qed.

(** The function once the length guard is passed: both markers fit their
    64-byte buffers. *)
Lemma extract_tag_content_guarded start tag out_len :
  length tag + 3 < 64 ->
  extract_tag_content start tag out_len =
  match strcasestr_simple start (open_marker tag) with
  | None => None
  | Some p =>
      let p := skipn (length (open_marker tag)) p in
      match strcasestr_simple p (close_marker tag) with
      | Some q => Some (copy_out p q out_len)
      | None => Some (copy_out p (until_lt p) out_len)
      end
  end.
Proof.
  intro H. unfold extract_tag_content.
  destruct (Nat.leb_spec 64 (length tag + 3)) as [L|L]; [lia|].
  assert (Ho : snprintf 64 (LT :: tag ++ [GT]) = open_marker tag).
  { unfold snprintf, open_marker. apply firstn_all2.
    simpl. rewrite length_app. simpl. lia. }
  assert (Hc : snprintf 64 (LT :: SLASH :: tag ++ [GT]) = close_marker tag).
  { unfold snprintf, close_marker. apply firstn_all2.
    simpl. rewrite length_app. simpl. lia. }
  rewrite Ho, Hc. cbv zeta.
  now destruct (strcasestr_simple start (open_marker tag)).
Qed.

Lemma extract_tag_content_absent start tag out_len :
  ~ occurs_ci (open_marker tag) start ->
  extract_tag_content start tag out_len = None.
Proof.
  intro H. unfold extract_tag_content.
  destruct (Nat.leb_spec 64 (length tag + 3)) as [L|L]; [reflexivity|].
  assert (Ho : snprintf 64 (LT :: tag ++ [GT]) = open_marker tag).
  { unfold snprintf, open_marker. apply firstn_all2.
    simpl. rewrite length_app. simpl. lia. }
  rewrite Ho. cbv zeta.
  apply strcasestr_simple_None in H; [|discriminate]. now rewrite H.
Qed.

(** C5, amended: for a tag name of at most 60 characters and a slice
    whose first open marker is followed by no close marker, extraction
    returns the text between the open marker and the next '<' (or the
    end of the slice), cut to its first [out_len - 1] bytes; the whole
    text when it is shorter than [out_len]. *)
Theorem extract_unterminated_tag start tag out_len m content text rest :
  length tag + 3 < 64 -> 0 < out_len ->
  first_occurrence (open_marker tag) start (m ++ content) ->
  ci_eq m (open_marker tag) ->
  ~ occurs_ci (close_marker tag) content ->
  content = text ++ rest -> ~ In LT text ->
  rest = [] \/ begins_with LT rest ->
  extract_tag_content start tag out_len = Some (firstn (out_len - 1) text) /\
  (length text < out_len ->
   extract_tag_content start tag out_len = Some text).
Proof.
  intros Htag Hout Hfirst Hm Hclose -> Htext Hrest.
  assert (E : extract_tag_content start tag out_len
              = Some (firstn (out_len - 1) text)).
  { rewrite extract_tag_content_guarded by assumption.
    apply strcasestr_simple_Some in Hfirst; [|discriminate].
    rewrite Hfirst. cbv zeta.
    rewrite (skipn_ci_marker _ _ (text ++ rest) Hm).
    apply strcasestr_simple_None in Hclose; [|discriminate].
    rewrite Hclose, until_lt_split by assumption.
    now rewrite copy_out_app. }
  split; [exact E|].
  intro Hlen. rewrite E. f_equal. apply firstn_all2. lia.
Qed.

(** ** Where the fields of a record come from *)

Lemma first_occurrence_self needle hay q :
  first_occurrence needle hay q -> first_occurrence needle q q.
Proof.
  intros (pre & _ & Hq & _). exists []. repeat split; auto.
  intros. simpl. lia.
Qed.

Lemma extract_tag_content_at_first start tag out_len q :
  length tag + 3 < 64 ->
  first_occurrence (open_marker tag) start q ->
  extract_tag_content start tag out_len = extract_tag_content q tag out_len.
Proof.
  intros Htag Hq. rewrite !extract_tag_content_guarded by assumption.
  pose proof (first_occurrence_self _ _ _ Hq) as Hq'.
  apply strcasestr_simple_Some in Hq, Hq'; try discriminate.
  now rewrite Hq, Hq'.
Qed.

Lemma extract_into_searched_to_end block_start tag :
  length (lit tag) + 3 < 64 ->
  searched_to_end block_start tag (extract_into block_start tag).
Proof.
  intro Htag. unfold searched_to_end, extract_into. split.
  - intro H. now rewrite extract_tag_content_absent.
  - intros q Hq.
    now rewrite (extract_tag_content_at_first block_start _ _ q).
Qed.

(** C2, amended: each of the four fields of a record is extracted from
    the text that runs from the record's content start to the end of the
    buffer, not to the record's closing marker: the field is empty when
    its tag occurs nowhere in that text, and otherwise it is what the
    first occurrence of the tag yields, also when that occurrence lies in
    a later record. *)
Theorem fields_searched_to_end scan block_start block_after :
  find_next_stmttrn scan = Some (block_start, block_after) ->
  let f := extract_fields block_start in
  searched_to_end block_start "DTPOSTED" (dtposted f) /\
  searched_to_end block_start "TRNAMT" (trnamt f) /\
  searched_to_end block_start "NAME" (name f) /\
  searched_to_end block_start "MEMO" (memo f).
Proof.
  intros _. cbv zeta. unfold extract_fields.
  cbn [dtposted trnamt name memo].
  repeat split; apply extract_into_searched_to_end; vm_compute; lia.
Qed.

(** ** Date normalization *)

Lemma forallb_false {A} (f : A -> bool) l :
  forallb f l = false <-> exists x, In x l /\ f x = false.
Proof.
  induction l as [|a l IH]; simpl.
  - split; [discriminate | intros (x & [] & _)].
  - rewrite andb_false_iff, IH. split.
    + intros [H | (x & Hx & Hf)]; [now exists a; auto | exists x; auto].
    + intros (x & [<- | Hx] & Hf); [now left | right; now exists x].
Qed.

Lemma date_digit_checks token :
  8 <= length token ->
  forallb isdigit (firstn 4 token)
  && forallb isdigit (firstn 2 (skipn 4 token))
  && forallb isdigit (firstn 2 (skipn 6 token))
  = forallb isdigit (firstn 8 token).
Proof.
  intro H.
  do 8 (destruct token as [|? token]; [simpl in H; lia|]).
  cbn [firstn skipn forallb].
  repeat match goal with |- context [isdigit ?c] =>
    destruct (isdigit c); cbn [andb] end; reflexivity.
Qed.

Lemma isdigit_ascii c : isdigit c = true <-> In c (lit "0123456789").
Proof.
  split.
  - destruct c as [[] [] [] [] [] [] [] []]; intro H;
      try discriminate H; cbv; tauto.
  - intro H. cbv in H. repeat destruct H as [<- | H]; try reflexivity.
    contradiction.
Qed.

(** C4: a token of at least 8 characters whose first 8 are ASCII digits is
    converted, given a buffer of at least 11 bytes, to MM/DD/YYYY made of
    characters 4-5, 6-7 and 0-3 with no range check ("99991399" gives
    "13/99/9999"); the conversion fails exactly when the token is shorter
    than 8, the buffer is smaller than 11, or one of the first 8 characters
    is not a digit. *)
Theorem ofxdate_to_mmddyyyy_spec token outlen :
  (forall y1 y2 y3 y4 m1 m2 d1 d2 rest,
      token = y1 :: y2 :: y3 :: y4 :: m1 :: m2 :: d1 :: d2 :: rest ->
      forallb isdigit [y1; y2; y3; y4; m1; m2; d1; d2] = true ->
      11 <= outlen ->
      ofxdate_to_mmddyyyy token outlen
      = Some [m1; m2; SLASH; d1; d2; SLASH; y1; y2; y3; y4]) /\
  (ofxdate_to_mmddyyyy token outlen = None <->
   length token < 8 \/ outlen < 11 \/
   exists c, In c (firstn 8 token) /\ isdigit c = false) /\
  (forall c, isdigit c = true <-> In c (lit "0123456789")) /\
  ofxdate_to_mmddyyyy (lit "99991399") 11 = Some (lit "13/99/9999").
Proof.
  split; [|split; [|split; [apply isdigit_ascii | reflexivity]]].
  - intros y1 y2 y3 y4 m1 m2 d1 d2 rest -> Hd Hout.
    cbn [forallb] in Hd.
    repeat (apply andb_true_iff in Hd as [? Hd]).
    unfold ofxdate_to_mmddyyyy.
    change (length (y1 :: y2 :: y3 :: y4 :: m1 :: m2 :: d1 :: d2 :: rest) <? 8)
      with false.
    destruct (Nat.ltb_spec outlen 11); [lia|].
    cbn [orb firstn skipn forallb].
    repeat match goal with H : isdigit _ = true |- _ => rewrite H; clear H end.
    cbn [andb negb app]. unfold snprintf.
    rewrite firstn_all2 by (simpl; lia). reflexivity.
  - unfold ofxdate_to_mmddyyyy.
    destruct (Nat.ltb_spec (length token) 8) as [L|L]; cbn [orb].
    { split; auto. }
    destruct (Nat.ltb_spec outlen 11) as [O|O].
    { split; auto. }
    pose proof (date_digit_checks token L) as Hc.
    destruct (forallb isdigit (firstn 4 token)) eqn:Hy; cbn [negb].
    + destruct (forallb isdigit (firstn 2 (skipn 4 token))) eqn:Hm; cbn [negb].
      * destruct (forallb isdigit (firstn 2 (skipn 6 token))) eqn:Hd;
          cbn [negb andb] in *.
        -- split; [discriminate|]. intros [H | [H | H]]; try lia.
           apply forallb_false in H. congruence.
        -- split; auto. intros _. right; right. now apply forallb_false.
      * cbn [andb] in Hc. split; auto. intros _. right; right.
        now apply forallb_false.
    + cbn [andb] in Hc. split; auto. intros _. right; right.
      now apply forallb_false.
Qed.

(** ** The record locator *)

Lemma find_next_stmttrn_Some buf block_start block_after :
  find_next_stmttrn buf = Some (block_start, block_after) <->
  record_span buf block_start block_after.
Proof.
  unfold find_next_stmttrn, record_span. split.
  - destruct (strcasestr_simple buf (lit "<STMTTRN")) as [p|] eqn:Ep;
      [|discriminate].
    destruct (strchr p GT) as [o|] eqn:Eo; [|discriminate].
    destruct (strcasestr_simple (tl o) (lit "</STMTTRN>")) as [c|] eqn:Ec;
      [|discriminate].
    intros [= <- <-].
    apply strcasestr_simple_Some in Ep; [|lit_nonempty].
    apply strchr_Some in Eo as (attrs & rest & -> & Hattrs & ->).
    cbn [tl] in *.
    pose proof Ec as Hc.
    apply strcasestr_simple_Some in Hc; [|lit_nonempty].
    destruct Hc as (content & Hcontent & (cl & post & -> & Hcl) & Hmin).
    exists (attrs ++ GT :: rest), attrs, content, cl.
    pose proof (skipn_ci_marker _ _ post Hcl) as Hs.
    cbn [skipn length lit list_ascii_of_string] in Hs |- *. rewrite Hs.
    repeat split; auto.
    apply strcasestr_simple_Some; [lit_nonempty | assumption].
  - intros (p & attrs & content & cl & Hp & -> & Hattrs & Hbs & Hcl & Hc).
    apply strcasestr_simple_Some in Hp; [|lit_nonempty]. rewrite Hp.
    assert (Eo : strchr (attrs ++ GT :: block_start) GT
                 = Some (GT :: block_start)).
    { apply strchr_Some. now exists attrs, block_start. }
    rewrite Eo. cbn [tl].
    apply strcasestr_simple_Some in Hc; [|lit_nonempty]. rewrite Hc.
    now rewrite (skipn_ci_marker _ _ block_after Hcl).
Qed.

Lemma find_next_stmttrn_None buf :
  find_next_stmttrn buf = None <-> no_record_span buf.
Proof.
  unfold find_next_stmttrn, no_record_span. split.
  - destruct (strcasestr_simple buf (lit "<STMTTRN")) as [p|] eqn:Ep.
    + apply strcasestr_simple_Some in Ep; [|lit_nonempty].
      destruct (strchr p GT) as [o|] eqn:Eo.
      * apply strchr_Some in Eo as (attrs & rest & -> & Hattrs & ->).
        cbn [tl].
        destruct (strcasestr_simple rest (lit "</STMTTRN>")) eqn:Ec;
          [discriminate|].
        apply strcasestr_simple_None in Ec; [|lit_nonempty].
        intros _. right; right. now exists (attrs ++ GT :: rest), attrs, rest.
      * apply strchr_None in Eo. intros _. right; left. now exists p.
    + apply strcasestr_simple_None in Ep; [|lit_nonempty]. now left.
  - intros [H | [(p & Hp & Hgt) | (p & attrs & bs & Hp & -> & Hattrs & Hc)]].
    + apply strcasestr_simple_None in H; [|lit_nonempty]. now rewrite H.
    + apply strcasestr_simple_Some in Hp; [|lit_nonempty]. rewrite Hp.
      apply strchr_None in Hgt. now rewrite Hgt.
    + apply strcasestr_simple_Some in Hp; [|lit_nonempty]. rewrite Hp.
      assert (Eo : strchr (attrs ++ GT :: bs) GT = Some (GT :: bs)).
      { apply strchr_Some. now exists attrs, bs. }
      rewrite Eo. cbn [tl].
      apply strcasestr_simple_None in Hc; [|lit_nonempty]. now rewrite Hc.
Qed.

(** The layout of a span in the scanned text. *)
Lemma record_span_layout buf block_start block_after :
  record_span buf block_start block_after ->
  exists before content cl,
    buf = before ++ GT :: block_start /\
    block_start = content ++ cl ++ block_after /\
    length cl = length (lit "</STMTTRN>").
Proof.
  intros (p & attrs & content & cl & (pre & -> & _) & -> & _ & Hbs & Hcl & _).
  exists (pre ++ attrs), content, cl.
  rewrite <- app_assoc. repeat split; auto. now apply ci_eq_length.
Qed.

Lemma find_next_stmttrn_advances scan block_start block_after :
  find_next_stmttrn scan = Some (block_start, block_after) ->
  length block_after < length block_start /\
  length block_start < length scan.
Proof.
  intro H. apply find_next_stmttrn_Some, record_span_layout in H.
  destruct H as (before & content & cl & -> & -> & Hcl).
  rewrite !length_app, Hcl. simpl. rewrite !length_app, Hcl. simpl. lia.
Qed.

(** ** Field buffers *)

Lemma MAX_FIELD_pos : 0 < MAX_FIELD.
Proof. apply Nat.ltb_lt. reflexivity. Qed.

Lemma copy_out_length p q out_len :
  0 < out_len -> length (copy_out p q out_len) < out_len.
Proof.
  intro H. unfold copy_out.
  destruct (Nat.leb_spec out_len (length p - length q)) as [L|L];
    rewrite length_firstn; lia.
Qed.

Lemma extract_tag_content_length start tag out_len v :
  0 < out_len ->
  extract_tag_content start tag out_len = Some v -> length v < out_len.
Proof.
  intro H. unfold extract_tag_content.
  destruct (64 <=? length tag + 3); [discriminate|].
  cbv zeta.
  destruct (strcasestr_simple start _) as [p|]; [|discriminate].
  destruct (strcasestr_simple (skipn _ p) _) as [q|];
    intros [= <-]; now apply copy_out_length.
Qed.

Lemma extract_into_length start tag :
  length (extract_into start tag) < MAX_FIELD.
Proof.
  unfold extract_into.
  destruct (extract_tag_content start (lit tag) MAX_FIELD) as [v|] eqn:E.
  - eapply extract_tag_content_length; [apply MAX_FIELD_pos | exact E].
  - apply MAX_FIELD_pos.
Qed.

Lemma skip_space_length s : length (skip_space s) <= length s.
Proof.
  induction s as [|c s IH]; simpl; [lia|].
  destruct (isspace c); simpl; lia.
Qed.

Lemma chop_space_length s : length (chop_space s) <= length s.
Proof.
  induction s as [|c s IH]; simpl; [lia|].
  destruct (chop_space s); [destruct (isspace c)|]; simpl in *; lia.
Qed.

Lemma trim_inplace_length s : length (trim_inplace s) <= length s.
Proof.
  unfold trim_inplace.
  pose proof (chop_space_length (skip_space s)).
  pose proof (skip_space_length s). lia.
Qed.

Lemma trnamt_fits block_start :
  length (trnamt (fields_of block_start)) < MAX_FIELD.
Proof.
  unfold fields_of, sanitize_fields, trim_fields, extract_fields; simpl.
  pose proof (trim_inplace_length (extract_into block_start "TRNAMT")).
  pose proof (extract_into_length block_start "TRNAMT"). lia.
Qed.

Lemma amt_clean_loop_filter size : forall rest ai,
  ai + length rest < size ->
  amt_clean_loop rest ai size = strip_commas rest.
Proof.
  induction rest as [|c rest IH]; intros ai H; simpl in *; [reflexivity|].
  destruct (Nat.ltb_spec (ai + 1) size) as [L|L]; [|lia].
  destruct (Ascii.eqb c COMMA); simpl.
  - apply IH. lia.
  - f_equal. apply IH. lia.
Qed.

Lemma clean_amount_strip amt :
  length amt < MAX_FIELD -> clean_amount amt = strip_commas amt.
Proof. intro H. unfold clean_amount. now apply amt_clean_loop_filter. Qed.

Lemma sanitize_idempotent s : sanitize (sanitize s) = sanitize s.
Proof.
  unfold sanitize. rewrite map_map. apply map_ext. intro c.
  destruct (Ascii.eqb c CR || Ascii.eqb c LF) eqn:E; [reflexivity|].
  now rewrite E.
Qed.

Lemma is_empty_true s : is_empty s = true <-> s = [].
Proof. destruct s; simpl; split; congruence. Qed.

Lemma is_empty_false s : is_empty s = false <-> s <> [].
Proof. destruct s; simpl; split; congruence. Qed.

(** ** Dates *)

Lemma ofxdate_Some_nonempty token d :
  ofxdate_to_mmddyyyy token 16 = Some d -> d <> [].
Proof.
  unfold ofxdate_to_mmddyyyy.
  destruct (_ || _); [discriminate|].
  repeat (destruct (negb _); [discriminate|]).
  intros [= <-]. destruct token as [|a [|b [|c [|e [|m token]]]]];
    unfold snprintf; simpl; discriminate.
Qed.

Lemma ofxdate_prefix token outlen :
  8 <= length token ->
  ofxdate_to_mmddyyyy (firstn 8 token) outlen
  = ofxdate_to_mmddyyyy token outlen.
Proof.
  intro H.
  do 8 (destruct token as [|? token]; [simpl in H; lia|]).
  reflexivity.
Qed.

(** The two date blocks of the loop body together. *)
Lemma date_blocks dt :
  (if is_empty (convert_date dt) then fallback_date dt else convert_date dt)
  = qif_date dt.
Proof.
  unfold convert_date, fallback_date, qif_date, strncpy.
  destruct (ofxdate_to_mmddyyyy dt 16) as [d|] eqn:E.
  - apply ofxdate_Some_nonempty in E. now destruct d.
  - destruct (Nat.leb_spec 8 (length dt)) as [L|L]; [|reflexivity].
    rewrite (ofxdate_prefix dt 16 L), E. reflexivity.
Qed.

Section Pass.

Variable cfg : Config.

(** ** The loop *)

Lemma fold_left_cons {A B} (f : A -> B -> A) x l a :
  fold_left f (x :: l) a = fold_left f l (f a x).
Proof. reflexivity. Qed.

Lemma main_loop_S fuel scan st :
  main_loop cfg (S fuel) scan st =
  match find_next_stmttrn scan with
  | None => Some st
  | Some (block_start, block_after) =>
      main_loop cfg fuel block_after (loop_body cfg block_start st)
  end.
Proof. reflexivity. Qed.

Lemma scan_records_S fuel scan :
  scan_records (S fuel) scan =
  match find_next_stmttrn scan with
  | None => []
  | Some (block_start, block_after) =>
      block_start :: scan_records fuel block_after
  end.
Proof. reflexivity. Qed.

Lemma scan_records_fuel : forall fuel fuel' scan,
  length scan < fuel -> length scan < fuel' ->
  scan_records fuel scan = scan_records fuel' scan.
Proof.
  induction fuel as [|fuel IH]; intros fuel' scan H H'; [lia|].
  destruct fuel' as [|fuel']; [lia|]. rewrite !scan_records_S.
  destruct (find_next_stmttrn scan) as [[bs ba]|] eqn:E; [|reflexivity].
  apply find_next_stmttrn_advances in E. f_equal. apply IH; lia.
Qed.

Lemma main_loop_fold : forall fuel scan st,
  length scan < fuel ->
  main_loop cfg fuel scan st =
  Some (fold_left (fun s bs => loop_body cfg bs s) (scan_records fuel scan) st).
Proof.
  induction fuel as [|fuel IH]; intros scan st H; [lia|].
  rewrite main_loop_S, scan_records_S.
  destruct (find_next_stmttrn scan) as [[bs ba]|] eqn:E; [|reflexivity].
  apply find_next_stmttrn_advances in E.
  rewrite fold_left_cons, (IH ba (loop_body cfg bs st)) by lia.
  reflexivity.
Qed.

(** Any number of iterations beyond the length of the text gives the same
    final state. *)
Lemma main_loop_enough fuel scan st :
  length scan < fuel ->
  main_loop cfg fuel scan st = main_loop cfg (S (length scan)) scan st.
Proof.
  intro H. rewrite !main_loop_fold by lia.
  now rewrite (scan_records_fuel fuel (S (length scan))) by lia.
Qed.

(** ** One iteration *)

Lemma name_sanitized block_start :
  sanitize (name (fields_of block_start)) = name (fields_of block_start).
Proof. unfold fields_of, sanitize_fields; simpl. apply sanitize_idempotent. Qed.

Lemma date_line st q :
  (if negb (is_empty q) then fprintf st (lit "D" ++ q ++ [LF])
   else fprintf st (lit "D" ++ [LF])) = fprintf st (line "D" q).
Proof. now destruct q. Qed.

Lemma payee_line st nm :
  (if is_empty nm then fprintf st (lit "P(unknown)" ++ [LF])
   else fprintf st (lit "P" ++ nm ++ [LF])) = fprintf st (line "P" (payee nm)).
Proof. now destruct nm. Qed.

Lemma loop_body_skip block_start st :
  emitted block_start = false -> loop_body cfg block_start st = st.
Proof.
  unfold emitted, loop_body. fold (fields_of block_start).
  intro H. apply negb_false_iff in H. now rewrite H.
Qed.

(** The state after an iteration that passes the skip rule, apart from
    the standard output. *)
Lemma loop_body_emit block_start st :
  emitted block_start = true ->
  let f := fields_of block_start in
  let st' := loop_body cfg block_start st in
  fout st' = fout st ++ record_block cfg f /\
  numTransactions st' = (numTransactions st + 1)%Z /\
  printMemoWarning st' =
  printMemoWarning st || (negb (is_empty (memo f)) && negb (memoFlag cfg)).
Proof.
  unfold emitted. intro H. apply negb_true_iff in H.
  cbv zeta. unfold loop_body. fold (fields_of block_start).
  rewrite H, date_blocks, date_line.
  assert (Hn : (if is_empty (name (fields_of block_start))
                then name (fields_of block_start)
                else sanitize (name (fields_of block_start)))
               = name (fields_of block_start)).
  { rewrite name_sanitized.
    now destruct (is_empty (name (fields_of block_start))). }
  rewrite Hn, payee_line.
  rewrite clean_amount_strip by apply trnamt_fits.
  unfold record_block, memo_lines.
  destruct (2 <=? verbosity cfg)%Z, (is_empty (memo (fields_of block_start))),
    (memoFlag cfg); cbn [fout numTransactions printMemoWarning fprintf printf
                         negb andb orb app];
    rewrite <- ?app_assoc; cbn [app];
    rewrite ?orb_false_r, ?orb_true_r; auto.
Qed.

Lemma loop_body_fout block_start st :
  fout (loop_body cfg block_start st) = fout st ++ output_of cfg block_start.
Proof.
  unfold output_of. destruct (emitted block_start) eqn:E.
  - now apply loop_body_emit.
  - rewrite loop_body_skip by assumption. now rewrite app_nil_r.
Qed.

(** ** The skip rule *)

(** C10: a record dropped by the skip rule leaves the whole state as it
    was (output, counter of emitted records and suppressed-memo flag),
    whatever its memo and the memo option, and the loop goes on from the
    end of the record with that state. *)
Theorem skipped_record_keeps_state fuel scan block_start block_after st :
  find_next_stmttrn scan = Some (block_start, block_after) ->
  trim_inplace (extract_into block_start "TRNAMT") = [] ->
  loop_body cfg block_start st = st /\
  numTransactions (loop_body cfg block_start st) = numTransactions st /\
  printMemoWarning (loop_body cfg block_start st) = printMemoWarning st /\
  main_loop cfg (S fuel) scan st = main_loop cfg fuel block_after st.
Proof.
  intros Hfind Hamt.
  assert (E : loop_body cfg block_start st = st).
  { apply loop_body_skip. unfold emitted.
    change (trnamt (fields_of block_start))
      with (trim_inplace (extract_into block_start "TRNAMT")).
    now rewrite Hamt. }
  rewrite main_loop_S, Hfind, E. auto.
Qed.

(** ** The date line *)

(** C3, amended: for a record with a usable amount whose DTPOSTED token
    fails the conversion on the full token and on its first 8 characters,
    the record is still emitted and its date line carries the first 15
    characters of the raw token (the 16-byte date buffer holds no more):
    the whole token when it has at most 15 characters. *)
Theorem unparseable_date_line block_start st :
  emitted block_start = true ->
  let dt := dtposted (fields_of block_start) in
  let st' := loop_body cfg block_start st in
  ofxdate_to_mmddyyyy dt 16 = None ->
  ofxdate_to_mmddyyyy (firstn 8 dt) 16 = None ->
  (exists rest, fout st' = fout st ++ line "D" (firstn 15 dt) :: rest) /\
  numTransactions st' = (numTransactions st + 1)%Z /\
  (length dt <= 15 ->
   exists rest, fout st' = fout st ++ line "D" dt :: rest).
Proof.
  intros E. cbv zeta. intros Hfull _.
  destruct (loop_body_emit block_start st E) as (Hout & Hnum & _).
  rewrite Hout. unfold record_block, qif_date. rewrite Hfull.
  split; [|split; [exact Hnum|]].
  - eexists. reflexivity.
  - intro Hlen. rewrite firstn_all2 by lia. eexists. reflexivity.
Qed.

(** ** The amount line *)

Lemma strip_commas_no_comma s : ~ In COMMA (strip_commas s).
Proof.
  unfold strip_commas. intro H. apply filter_In in H as [_ H].
  discriminate H.
Qed.

(** C8: for every emitted record the comma-stripping loop yields the
    trimmed amount token with its commas removed and nothing else
    changed, and that string, which holds no comma, is the one on the
    record's T line, which follows the D, P and M lines of the block. *)
Theorem amount_line_comma_free block_start st :
  emitted block_start = true ->
  let amount := trim_inplace (extract_into block_start "TRNAMT") in
  let st' := loop_body cfg block_start st in
  clean_amount amount
  = filter (fun c => negb (Ascii.eqb c COMMA)) amount /\
  ~ In COMMA (clean_amount amount) /\
  exists before,
    fout st' = fout st ++ before
               ++ [line "T" (clean_amount amount); line "C*" []; line "^" []]
    /\ forall l, In l before -> ~ begins_with (ascii_of_N 84) l.
Proof.
  intro E. cbv zeta.
  change (trim_inplace (extract_into block_start "TRNAMT"))
    with (trnamt (fields_of block_start)).
  assert (Hc : clean_amount (trnamt (fields_of block_start))
               = strip_commas (trnamt (fields_of block_start)))
    by (apply clean_amount_strip, trnamt_fits).
  rewrite Hc. split; [reflexivity|]. split; [apply strip_commas_no_comma|].
  destruct (loop_body_emit block_start st E) as (Hout & _).
  rewrite Hout. unfold record_block.
  exists ([line "D" (qif_date (dtposted (fields_of block_start)));
           line "P" (payee (name (fields_of block_start)))]
          ++ memo_lines cfg (fields_of block_start)).
  rewrite <- !app_assoc. split; [reflexivity|].
  intros l Hl (r & ->). unfold memo_lines in Hl.
  destruct (memoFlag cfg && negb (is_empty (memo (fields_of block_start))));
    cbn in Hl; intuition discriminate.
Qed.

(** ** The whole run *)

Lemma loop_body_warning block_start st :
  printMemoWarning (loop_body cfg block_start st)
  = printMemoWarning st || suppresses cfg block_start.
Proof.
  unfold suppresses. destruct (emitted block_start) eqn:E.
  - now destruct (loop_body_emit block_start st E) as (_ & _ & ->).
  - rewrite loop_body_skip by assumption. now rewrite orb_false_r.
Qed.

Lemma loop_body_count block_start st :
  numTransactions (loop_body cfg block_start st)
  = (numTransactions st + if emitted block_start then 1 else 0)%Z.
Proof.
  destruct (emitted block_start) eqn:E.
  - now destruct (loop_body_emit block_start st E) as (_ & -> & _).
  - rewrite loop_body_skip by assumption. lia.
Qed.

Lemma run_fout : forall recs st,
  fout (fold_left (fun s bs => loop_body cfg bs s) recs st)
  = fout st ++ flat_map (output_of cfg) recs.
Proof.
  induction recs as [|bs recs IH]; intro st.
  - cbn [fold_left flat_map]. now rewrite app_nil_r.
  - rewrite fold_left_cons, IH, loop_body_fout. cbn [flat_map].
    now rewrite app_assoc.
Qed.

Lemma run_warning : forall recs st,
  printMemoWarning (fold_left (fun s bs => loop_body cfg bs s) recs st)
  = printMemoWarning st || existsb (suppresses cfg) recs.
Proof.
  induction recs as [|bs recs IH]; intro st.
  - cbn [fold_left existsb]. now rewrite orb_false_r.
  - rewrite fold_left_cons, IH, loop_body_warning. cbn [existsb].
    now rewrite orb_assoc.
Qed.

Lemma run_count : forall recs st,
  numTransactions (fold_left (fun s bs => loop_body cfg bs s) recs st)
  = (numTransactions st + Z.of_nat (length (filter emitted recs)))%Z.
Proof.
  induction recs as [|bs recs IH]; intro st.
  - cbn [fold_left filter length]. lia.
  - rewrite fold_left_cons, IH, loop_body_count. cbn [filter].
    destruct (emitted bs); cbn [length]; lia.
Qed.

(** The loop always ends, and the run is the fold of the loop body over
    the records of the buffer. *)
Lemma convert_run file :
  convert cfg file
  = Some (fold_left (fun s bs => loop_body cfg bs s)
            (records (c_str file)) start_state).
Proof.
  unfold convert, records. cbv zeta. fold start_state.
  apply main_loop_fold. lia.
Qed.

Lemma scan_records_suffixes : forall fuel scan,
  Forall (fun p => exists pre, scan = pre ++ p) (scan_records fuel scan).
Proof.
  induction fuel as [|fuel IH]; intro scan; [constructor|].
  rewrite scan_records_S.
  destruct (find_next_stmttrn scan) as [[bs ba]|] eqn:E; [|constructor].
  apply find_next_stmttrn_Some, record_span_layout in E.
  destruct E as (before & content & cl & -> & -> & _).
  constructor.
  - exists (before ++ [GT]). now rewrite <- app_assoc.
  - eapply Forall_impl; [|apply IH]. intros p (pre & ->).
    exists (before ++ GT :: content ++ cl ++ pre).
    rewrite <- !app_assoc. cbn [app]. now rewrite <- !app_assoc.
Qed.

Lemma scan_records_sorted : forall fuel scan,
  StronglySorted (fun p q => length q < length p) (scan_records fuel scan).
Proof.
  induction fuel as [|fuel IH]; intro scan; [constructor|].
  rewrite scan_records_S.
  destruct (find_next_stmttrn scan) as [[bs ba]|] eqn:E; [|constructor].
  apply find_next_stmttrn_advances in E as [E _].
  constructor; [apply IH|].
  eapply Forall_impl; [|apply scan_records_suffixes].
  intros p (pre & Hp). cbv beta. rewrite Hp, length_app in E. lia.
Qed.

Lemma records_in_input_order buf : in_input_order buf (records buf).
Proof.
  split; [apply scan_records_suffixes | apply scan_records_sorted].
Qed.

Lemma header_not_in_block block_start :
  ~ In header (output_of cfg block_start).
Proof.
  unfold output_of, record_block, memo_lines.
  destruct (emitted block_start); [|intros []].
  destruct (memoFlag cfg && negb (is_empty (memo (fields_of block_start))));
    cbn; intuition discriminate.
Qed.

(** C6: the locator returns a span exactly when the text holds, up to
    case, a first "<STMTTRN", a first '>' from there on, and a first
    "</STMTTRN>" after that '>': the content starts right after the '>'
    and the end pointer is right after the closing marker.  It returns
    nothing exactly when the open marker, the '>' or the closing marker
    is missing.  The record loop goes on from the end pointer of each
    span, stops with the current state the first time the locator
    returns nothing, and always stops: any number of iterations beyond
    the length of the text reaches the same final state. *)
Theorem record_locator_spec buf :
  (forall block_start block_after,
      find_next_stmttrn buf = Some (block_start, block_after) <->
      record_span buf block_start block_after) /\
  (find_next_stmttrn buf = None <-> no_record_span buf) /\
  (forall fuel st,
      find_next_stmttrn buf = None ->
      main_loop cfg (S fuel) buf st = Some st) /\
  (forall fuel st block_start block_after,
      find_next_stmttrn buf = Some (block_start, block_after) ->
      main_loop cfg (S fuel) buf st
      = main_loop cfg fuel block_after (loop_body cfg block_start st)) /\
  (forall st, exists st',
      forall fuel, length buf < fuel -> main_loop cfg fuel buf st = Some st').
Proof.
  split; [intros; apply find_next_stmttrn_Some|].
  split; [apply find_next_stmttrn_None|].
  split; [|split].
  - intros fuel st H. now rewrite main_loop_S, H.
  - intros fuel st bs ba H. now rewrite main_loop_S, H.
  - intro st. eexists. intros fuel H.
    rewrite main_loop_enough by assumption. apply main_loop_fold. lia.
Qed.

End Pass.

(** ** Concrete records *)

(** The statements above at particular inputs, and the inputs on which
    the stronger readings fail. *)

(** The unterminated NAME of "<NAME>Alice<MEMO>..." is "Alice". *)
Lemma extract_unterminated_tag_witness :
  extract_tag_content (lit "<NAME>Alice<MEMO>...") (lit "NAME") MAX_FIELD
  = Some (firstn (MAX_FIELD - 1) (lit "Alice")) /\
  (length (lit "Alice") < MAX_FIELD ->
   extract_tag_content (lit "<NAME>Alice<MEMO>...") (lit "NAME") MAX_FIELD
   = Some (lit "Alice")).
Proof.
  apply (extract_unterminated_tag
           (lit "<NAME>Alice<MEMO>...") (lit "NAME") MAX_FIELD
           (lit "<NAME>") (lit "Alice<MEMO>...")
           (lit "Alice") (lit "<MEMO>...")).
  - vm_compute. lia.
  - apply MAX_FIELD_pos.
  - apply strcasestr_simple_Some; [discriminate | reflexivity].
  - reflexivity.
  - apply strcasestr_simple_None; [discriminate | reflexivity].
  - reflexivity.
  - vm_compute. intuition discriminate.
  - right. now exists (lit "MEMO>...").
Defined.

(** C5 as stated fails on a text longer than the output buffer: 4096
    characters follow "<NAME>" before the next '<', no "</NAME>" follows,
    and the 4096-byte buffer receives the first 4095 of them. *)
Lemma extract_unterminated_tag_truncated :
  let text := repeat (ascii_of_N 65) 4096 in
  let start := lit "<NAME>" ++ text ++ lit "<MEMO>x" in
  strcasestr_simple start (lit "<NAME>") = Some start /\
  strcasestr_simple (text ++ lit "<MEMO>x") (lit "</NAME>") = None /\
  ~ In LT text /\
  extract_tag_content start (lit "NAME") MAX_FIELD
  = Some (repeat (ascii_of_N 65) 4095) /\
  extract_tag_content start (lit "NAME") MAX_FIELD <> Some text.
Proof.
  cbv zeta.
  assert (E : extract_tag_content
                (lit "<NAME>" ++ repeat (ascii_of_N 65) 4096 ++ lit "<MEMO>x")
                (lit "NAME") MAX_FIELD = Some (repeat (ascii_of_N 65) 4095))
    by (vm_compute; reflexivity).
  split; [|split; [|split; [|split]]].
  - vm_compute; reflexivity.
  - vm_compute; reflexivity.
  - intro H. apply repeat_spec in H. discriminate H.
  - exact E.
  - rewrite E. intro H. apply (f_equal (option_map (@length ascii))) in H.
    cbn [option_map] in H. rewrite !repeat_length in H. discriminate H.
Qed.

(** Two records, the first one without a MEMO tag. *)
Lemma fields_searched_to_end_witness :
  let scan := lit "<STMTTRN><TRNAMT>1</TRNAMT></STMTTRN><STMTTRN><TRNAMT>2</TRNAMT><MEMO>rent</MEMO></STMTTRN>" in
  let block_start := lit "<TRNAMT>1</TRNAMT></STMTTRN><STMTTRN><TRNAMT>2</TRNAMT><MEMO>rent</MEMO></STMTTRN>" in
  let block_after := lit "<STMTTRN><TRNAMT>2</TRNAMT><MEMO>rent</MEMO></STMTTRN>" in
  find_next_stmttrn scan = Some (block_start, block_after) /\
  searched_to_end block_start "MEMO" (memo (extract_fields block_start)).
Proof.
  cbv zeta. split; [reflexivity|].
  apply (fields_searched_to_end
           (lit "<STMTTRN><TRNAMT>1</TRNAMT></STMTTRN><STMTTRN><TRNAMT>2</TRNAMT><MEMO>rent</MEMO></STMTTRN>")
           (lit "<TRNAMT>1</TRNAMT></STMTTRN><STMTTRN><TRNAMT>2</TRNAMT><MEMO>rent</MEMO></STMTTRN>")
           (lit "<STMTTRN><TRNAMT>2</TRNAMT><MEMO>rent</MEMO></STMTTRN>")).
  vm_compute. reflexivity.
Defined.

(** C2 as stated fails: the first record below has no MEMO tag between
    its content start and its closing marker, and its memo field is the
    memo of the second record. *)
Lemma field_taken_from_later_record :
  let scan := lit "<STMTTRN><TRNAMT>1</TRNAMT></STMTTRN><STMTTRN><TRNAMT>2</TRNAMT><MEMO>rent</MEMO></STMTTRN>" in
  let block_start := lit "<TRNAMT>1</TRNAMT></STMTTRN><STMTTRN><TRNAMT>2</TRNAMT><MEMO>rent</MEMO></STMTTRN>" in
  let block_after := lit "<STMTTRN><TRNAMT>2</TRNAMT><MEMO>rent</MEMO></STMTTRN>" in
  find_next_stmttrn scan = Some (block_start, block_after) /\
  record_slice block_start block_after = lit "<TRNAMT>1</TRNAMT>" /\
  strcasestr_simple (record_slice block_start block_after) (lit "<MEMO>")
  = None /\
  memo (extract_fields block_start) = lit "rent" /\
  memo (extract_fields block_start) <> [].
Proof.
  cbv zeta. repeat split; try (vm_compute; reflexivity). discriminate.
Qed.


(** A record with a blank amount and a memo, memos not requested. *)
Lemma skipped_record_keeps_state_witness :
  let cfg := {| memoFlag := false; verbosity := 2 |} in
  let scan := lit "<STMTTRN><TRNAMT> </TRNAMT><MEMO>rent</MEMO></STMTTRN>" in
  let block_start := lit "<TRNAMT> </TRNAMT><MEMO>rent</MEMO></STMTTRN>" in
  (find_next_stmttrn scan = Some (block_start, []) /\
   trim_inplace (extract_into block_start "TRNAMT") = [] /\
   memo (fields_of block_start) = lit "rent") /\
  loop_body cfg block_start init_state = init_state /\
  numTransactions (loop_body cfg block_start init_state)
  = numTransactions init_state /\
  printMemoWarning (loop_body cfg block_start init_state)
  = printMemoWarning init_state /\
  main_loop cfg 1 scan init_state = main_loop cfg 0 [] init_state.
Proof.
  cbv zeta. split; [repeat split; reflexivity|].
  apply (skipped_record_keeps_state
           {| memoFlag := false; verbosity := 2 |} 0
           (lit "<STMTTRN><TRNAMT> </TRNAMT><MEMO>rent</MEMO></STMTTRN>")
           (lit "<TRNAMT> </TRNAMT><MEMO>rent</MEMO></STMTTRN>") []
           init_state); reflexivity.
Defined.

(** A date that is not in the OFX form and fits the date buffer. *)
Lemma unparseable_date_line_witness :
  let cfg := {| memoFlag := false; verbosity := 1 |} in
  let block_start := lit "<DTPOSTED>28/11/2025<TRNAMT>5</STMTTRN>" in
  (emitted block_start = true /\
   dtposted (fields_of block_start) = lit "28/11/2025") /\
  (exists rest,
      fout (loop_body cfg block_start init_state)
      = fout init_state
        ++ line "D" (firstn 15 (dtposted (fields_of block_start))) :: rest) /\
  numTransactions (loop_body cfg block_start init_state)
  = (numTransactions init_state + 1)%Z /\
  (length (dtposted (fields_of block_start)) <= 15 ->
   exists rest,
     fout (loop_body cfg block_start init_state)
     = fout init_state ++ line "D" (dtposted (fields_of block_start)) :: rest).
Proof.
  cbv zeta. split; [split; reflexivity|].
  apply (unparseable_date_line
           {| memoFlag := false; verbosity := 1 |}
           (lit "<DTPOSTED>28/11/2025<TRNAMT>5</STMTTRN>") init_state);
    reflexivity.
Defined.

(** C3 as stated fails on a raw token of more than 15 characters: the
    token below fails both conversions, the record is emitted, and its
    date line holds the first 15 characters of the token, not the token. *)
Lemma raw_date_cut_to_buffer :
  let cfg := {| memoFlag := false; verbosity := 1 |} in
  let block_start := lit "<DTPOSTED>2025-11-28T12:00:00<TRNAMT>5</STMTTRN>" in
  let dt := dtposted (fields_of block_start) in
  dt = lit "2025-11-28T12:00:00" /\
  emitted block_start = true /\
  ofxdate_to_mmddyyyy dt 16 = None /\
  ofxdate_to_mmddyyyy (firstn 8 dt) 16 = None /\
  fout (loop_body cfg block_start init_state)
  = [line "D" (lit "2025-11-28T12:0"); line "P" (lit "(unknown)");
     line "T" (lit "5"); line "C*" []; line "^" []] /\
  ~ In (line "D" dt) (fout (loop_body cfg block_start init_state)).
Proof.
  cbv zeta. repeat split; try (vm_compute; reflexivity).
  vm_compute. intuition discriminate.
Qed.

(** An amount with grouping commas. *)
Lemma amount_line_comma_free_witness :
  let cfg := {| memoFlag := true; verbosity := 1 |} in
  let block_start := lit "<TRNAMT>-1,234,567.50</TRNAMT><MEMO>Tax</MEMO></STMTTRN>" in
  (emitted block_start = true /\
   clean_amount (trim_inplace (extract_into block_start "TRNAMT"))
   = lit "-1234567.50") /\
  clean_amount (trim_inplace (extract_into block_start "TRNAMT"))
  = filter (fun c => negb (Ascii.eqb c COMMA))
      (trim_inplace (extract_into block_start "TRNAMT")) /\
  ~ In COMMA (clean_amount (trim_inplace (extract_into block_start "TRNAMT"))) /\
  exists before,
    fout (loop_body cfg block_start init_state)
    = fout init_state ++ before
      ++ [line "T" (clean_amount
                      (trim_inplace (extract_into block_start "TRNAMT")));
          line "C*" []; line "^" []]
    /\ forall l, In l before -> ~ begins_with (ascii_of_N 84) l.
Proof.
  cbv zeta. split; [split; reflexivity|].
  apply (amount_line_comma_free
           {| memoFlag := true; verbosity := 1 |}
           (lit "<TRNAMT>-1,234,567.50</TRNAMT><MEMO>Tax</MEMO></STMTTRN>")
           init_state).
  reflexivity.
Defined.

(** ** A run *)

(** Two records with an amount and a last one without: the header and
    two blocks, in the order of the input, and a count of 2. *)
Example convert_two_of_three :
  let file := lit "<OFX><STMTTRN><DTPOSTED>20251128120000<TRNAMT>-1,234.50<NAME>Coffee
<MEMO>beans</STMTTRN><stmttrn><dtposted>20251129<trnamt>7<name> <memo>tip</stmttrn><STMTTRN><NAME>none</STMTTRN>" in
  option_map (fun st => (fout st, numTransactions st, printMemoWarning st))
    (convert {| memoFlag := false; verbosity := 1 |} file)
  = Some ([header;
           line "D" (lit "11/28/2025"); line "P" (lit "Coffee");
           line "T" (lit "-1234.50"); line "C*" []; line "^" [];
           line "D" (lit "11/29/2025"); line "P" (lit "(unknown)");
           line "T" (lit "7"); line "C*" []; line "^" []],
          2%Z, true).
Proof. vm_compute. reflexivity. Qed.

(** The same input with memos included. *)
Example convert_with_memo :
  let file := lit "<OFX><STMTTRN><DTPOSTED>20251128120000<TRNAMT>-1,234.50<NAME>Coffee
<MEMO>beans</STMTTRN><stmttrn><dtposted>20251129<trnamt>7<name> <memo>tip</stmttrn><STMTTRN><NAME>none</STMTTRN>" in
  option_map (fun st => (fout st, numTransactions st, printMemoWarning st))
    (convert {| memoFlag := true; verbosity := 1 |} file)
  = Some ([header;
           line "D" (lit "11/28/2025"); line "P" (lit "Coffee");
           line "M" (lit "beans");
           line "T" (lit "-1234.50"); line "C*" []; line "^" [];
           line "D" (lit "11/29/2025"); line "P" (lit "(unknown)");
           line "M" (lit "tip");
           line "T" (lit "7"); line "C*" []; line "^" []],
          2%Z, false).
Proof. vm_compute. reflexivity. Qed.

(** * Further properties of the program *)

(** ** Substring search *)

Lemma ci_eq_cons_inv a s b t :
  ci_eq (a :: s) (b :: t) -> tolower a = tolower b /\ ci_eq s t.
Proof. unfold ci_eq; simpl. intros [= H1 H2]. auto. Qed.

Lemma strncasecmp_ci : forall n s1 s1' s2 s2',
  ci_eq s1 s1' -> ci_eq s2 s2' ->
  strncasecmp s1 s2 n = strncasecmp s1' s2' n.
Proof.
  induction n as [|n IH]; intros s1 s1' s2 s2' H1 H2; [reflexivity|].
  destruct s1 as [|a s1], s1' as [|a' s1']; try discriminate H1;
    destruct s2 as [|b s2], s2' as [|b' s2']; try discriminate H2;
    try reflexivity.
  apply ci_eq_cons_inv in H1 as [Ha H1], H2 as [Hb H2].
  cbn [strncasecmp]. rewrite Ha, Hb.
  destruct (Ascii.eqb (tolower a') (tolower b')); [|reflexivity].
  now apply IH.
Qed.

Lemma hd_ci needle needle' :
  ci_eq needle needle' -> tolower (hd NUL needle) = tolower (hd NUL needle').
Proof.
  destruct needle, needle'; intro H; try discriminate H; [reflexivity|].
  now apply ci_eq_cons_inv in H.
Qed.

Lemma strcasestr_loop_ci k needle needle' : ci_eq needle needle' ->
  forall hay hay', ci_eq hay hay' ->
  option_map (@length ascii) (strcasestr_loop hay needle k)
  = option_map (@length ascii) (strcasestr_loop hay' needle' k).
Proof.
  intros Hn hay. induction hay as [|h hay IH]; intros [|h' hay'] Hh;
    try discriminate Hh; [reflexivity|].
  cbn [strcasestr_loop].
  rewrite (strncasecmp_ci k _ _ _ _ Hh Hn), (hd_ci _ _ Hn).
  pose proof (ci_eq_length _ _ Hh) as Hlen.
  apply ci_eq_cons_inv in Hh as [Hc Hh]. rewrite Hc.
  destruct (_ && _); [cbn [option_map]; now rewrite Hlen|].
  now apply IH.
Qed.

Lemma strcasestr_loop_needle_ci k needle needle' : ci_eq needle needle' ->
  forall hay,
  strcasestr_loop hay needle k = strcasestr_loop hay needle' k.
Proof.
  intros Hn hay. induction hay as [|h hay IH]; [reflexivity|].
  cbn [strcasestr_loop].
  rewrite (strncasecmp_ci k (h :: hay) (h :: hay) _ _ eq_refl Hn),
    (hd_ci _ _ Hn).
  destruct (_ && _); [reflexivity | exact IH].
Qed.

Lemma strcasestr_simple_needle_ci hay needle needle' :
  ci_eq needle needle' ->
  strcasestr_simple hay needle = strcasestr_simple hay needle'.
Proof.
  intro Hn. unfold strcasestr_simple. rewrite <- (ci_eq_length _ _ Hn).
  destruct (length needle =? 0); [reflexivity|].
  now apply strcasestr_loop_needle_ci.
Qed.

(** X1: for a non-empty needle [strcasestr_simple] returns NULL exactly
    when the needle occurs nowhere in the haystack up to case, and
    otherwise the pointer to its first such occurrence; an empty needle
    matches at the start. *)
Theorem strcasestr_simple_first_match hay c needle :
  (strcasestr_simple hay (c :: needle) = None <->
   ~ occurs_ci (c :: needle) hay) /\
  (forall q, strcasestr_simple hay (c :: needle) = Some q <->
             first_occurrence (c :: needle) hay q) /\
  strcasestr_simple hay [] = Some hay.
Proof.
  split; [apply strcasestr_simple_None; discriminate|].
  split; [|reflexivity].
  intro q. apply strcasestr_simple_Some. discriminate.
Qed.

(** X2: the search ignores the case of ASCII letters on both sides:
    haystacks and needles that agree up to case give a match at the same
    offset (the same remaining length) or no match alike, and with the
    same haystack the same pointer. *)
Theorem strcasestr_simple_ignores_case hay hay' needle needle' :
  ci_eq hay hay' -> ci_eq needle needle' ->
  option_map (@length ascii) (strcasestr_simple hay needle)
  = option_map (@length ascii) (strcasestr_simple hay' needle') /\
  strcasestr_simple hay needle = strcasestr_simple hay needle'.
Proof.
  intros Hh Hn. split; [|now apply strcasestr_simple_needle_ci].
  unfold strcasestr_simple. rewrite <- (ci_eq_length _ _ Hn).
  destruct (length needle =? 0).
  - cbn [option_map]. now rewrite (ci_eq_length _ _ Hh).
  - now apply strcasestr_loop_ci.
Qed.

Lemma strcasestr_simple_ignores_case_witness :
  (ci_eq (lit "a<Memo>B") (lit "A<MEMO>b") /\
   ci_eq (lit "<MEMO>") (lit "<memo>")) /\
  option_map (@length ascii)
    (strcasestr_simple (lit "a<Memo>B") (lit "<MEMO>"))
  = option_map (@length ascii)
      (strcasestr_simple (lit "A<MEMO>b") (lit "<memo>")) /\
  strcasestr_simple (lit "a<Memo>B") (lit "<MEMO>")
  = strcasestr_simple (lit "a<Memo>B") (lit "<memo>").
Proof.
  split; [split; reflexivity|].
  apply (strcasestr_simple_ignores_case
           (lit "a<Memo>B") (lit "A<MEMO>b") (lit "<MEMO>") (lit "<memo>"));
    reflexivity.
Defined.

(** ** Tag extraction, continued *)

Lemma copy_out_prefix p q out_len :
  exists rest, p = copy_out p q out_len ++ rest.
Proof.
  unfold copy_out.
  exists (skipn (if out_len <=? length p - length q
                 then out_len - 1 else length p - length q) p).
  symmetry. apply firstn_skipn.
Qed.

Lemma ci_eq_app a a' b b' : ci_eq a a' -> ci_eq b b' -> ci_eq (a ++ b) (a' ++ b').
Proof. unfold ci_eq. intros Ha Hb. now rewrite !map_app, Ha, Hb. Qed.

Lemma ci_eq_firstn n a a' : ci_eq a a' -> ci_eq (firstn n a) (firstn n a').
Proof. unfold ci_eq. intro H. now rewrite <- !firstn_map, H. Qed.

Lemma ci_eq_cons c a a' : ci_eq a a' -> ci_eq (c :: a) (c :: a').
Proof. unfold ci_eq. intro H. simpl. now rewrite H. Qed.

(** X3: for a tag name of at most 60 characters whose first open marker
    is followed by a close marker, extraction returns the text between
    the open marker and the first close marker after it, whatever the
    case of the markers, cut to its first [out_len - 1] bytes. *)
Theorem extract_terminated_tag start tag out_len m content text cl rest :
  length tag + 3 < 64 -> 0 < out_len ->
  first_occurrence (open_marker tag) start (m ++ content) ->
  ci_eq m (open_marker tag) ->
  content = text ++ cl ++ rest ->
  first_occurrence (close_marker tag) content (cl ++ rest) ->
  extract_tag_content start tag out_len = Some (firstn (out_len - 1) text).
Proof.
  intros Htag Hout Hfirst Hm -> Hclose.
  rewrite extract_tag_content_guarded by assumption.
  apply strcasestr_simple_Some in Hfirst; [|discriminate].
  rewrite Hfirst. cbv zeta.
  rewrite (skipn_ci_marker _ _ (text ++ cl ++ rest) Hm).
  apply strcasestr_simple_Some in Hclose; [|discriminate].
  rewrite Hclose. now rewrite copy_out_app.
Qed.

Lemma extract_terminated_tag_witness :
  extract_tag_content (lit "<id>7</id><name>Bob</NAME><NAME>Eve</NAME>")
    (lit "NAME") MAX_FIELD
  = Some (firstn (MAX_FIELD - 1) (lit "Bob")).
Proof.
  apply (extract_terminated_tag
           (lit "<id>7</id><name>Bob</NAME><NAME>Eve</NAME>") (lit "NAME")
           MAX_FIELD (lit "<name>") (lit "Bob</NAME><NAME>Eve</NAME>")
           (lit "Bob") (lit "</NAME>") (lit "<NAME>Eve</NAME>")).
  - vm_compute. lia.
  - apply MAX_FIELD_pos.
  - apply strcasestr_simple_Some; [discriminate | reflexivity].
  - reflexivity.
  - reflexivity.
  - apply strcasestr_simple_Some; [discriminate | reflexivity].
Defined.

(** X4: whatever the input, a successful extraction stores fewer than
    [out_len] characters, so the text and its NUL fit the output buffer,
    and the stored text is a piece of the input that starts right after
    the first open marker. *)
Theorem extract_tag_content_within start tag out_len v :
  0 < out_len ->
  extract_tag_content start tag out_len = Some v ->
  length v < out_len /\
  exists before m rest,
    start = before ++ m ++ v ++ rest /\
    ci_eq m (open_marker tag) /\
    first_occurrence (open_marker tag) start (m ++ v ++ rest).
Proof.
  intros Hout E. split; [now apply (extract_tag_content_length start tag)|].
  destruct (Nat.leb_spec 64 (length tag + 3)) as [L|L].
  { unfold extract_tag_content in E.
    destruct (Nat.leb_spec 64 (length tag + 3)); [discriminate | lia]. }
  rewrite extract_tag_content_guarded in E by assumption.
  destruct (strcasestr_simple start (open_marker tag)) as [p|] eqn:Ep;
    [|discriminate].
  apply strcasestr_simple_Some in Ep; [|discriminate].
  pose proof Ep as (before & Hstart & (m & after & -> & Hm) & _).
  cbv zeta in E. rewrite (skipn_ci_marker _ _ after Hm) in E.
  assert (Hv : exists q, v = copy_out after q out_len).
  { destruct (strcasestr_simple after (close_marker tag)) as [q|];
      injection E as <-; eexists; reflexivity. }
  destruct Hv as (q & ->).
  destruct (copy_out_prefix after q out_len) as (rest & Hrest).
  exists before, m, rest. rewrite <- Hrest. auto.
Qed.

Lemma extract_tag_content_within_witness :
  length (lit "7") < MAX_FIELD /\
  exists before m rest,
    lit "<TRNAMT>7<NAME>x" = before ++ m ++ lit "7" ++ rest /\
    ci_eq m (open_marker (lit "TRNAMT")) /\
    first_occurrence (open_marker (lit "TRNAMT")) (lit "<TRNAMT>7<NAME>x")
      (m ++ lit "7" ++ rest).
Proof.
  apply (extract_tag_content_within
           (lit "<TRNAMT>7<NAME>x") (lit "TRNAMT") MAX_FIELD (lit "7")).
  - apply MAX_FIELD_pos.
  - reflexivity.
Defined.

(** X5: extraction reports "not found" in exactly two cases: the tag
    name has 61 characters or more (the markers would not fit their
    64-byte buffers), or the open marker occurs nowhere in the text, up
    to case. *)
Theorem extract_tag_content_not_found start tag out_len :
  extract_tag_content start tag out_len = None <->
  61 <= length tag \/ ~ occurs_ci (open_marker tag) start.
Proof.
  destruct (Nat.leb_spec 64 (length tag + 3)) as [L|L].
  - unfold extract_tag_content.
    destruct (Nat.leb_spec 64 (length tag + 3)); [|lia].
    split; auto. intros _. left. lia.
  - rewrite extract_tag_content_guarded by assumption.
    destruct (strcasestr_simple start (open_marker tag)) as [p|] eqn:Ep.
    + cbv zeta. split.
      * destruct (strcasestr_simple _ (close_marker tag)); discriminate.
      * intros [H|H]; [lia|].
        apply strcasestr_simple_None in H; [congruence | discriminate].
    + apply strcasestr_simple_None in Ep; [|discriminate]. tauto.
Qed.

(** X6: the case of the letters of the tag name does not matter:
    two tag names that agree up to case extract the same text. *)
Theorem extract_tag_content_tag_case start tag tag' out_len :
  ci_eq tag tag' ->
  extract_tag_content start tag out_len
  = extract_tag_content start tag' out_len.
Proof.
  intro H. unfold extract_tag_content.
  rewrite <- (ci_eq_length _ _ H).
  destruct (64 <=? length tag + 3); [reflexivity|].
  assert (Ho : ci_eq (snprintf 64 (LT :: tag ++ [GT]))
                 (snprintf 64 (LT :: tag' ++ [GT]))).
  { apply ci_eq_firstn, ci_eq_cons, ci_eq_app; [exact H | reflexivity]. }
  assert (Hc : ci_eq (snprintf 64 (LT :: SLASH :: tag ++ [GT]))
                 (snprintf 64 (LT :: SLASH :: tag' ++ [GT]))).
  { apply ci_eq_firstn, ci_eq_cons, ci_eq_cons, ci_eq_app;
      [exact H | reflexivity]. }
  cbv zeta.
  rewrite <- (strcasestr_simple_needle_ci start _ _ Ho).
  rewrite <- (ci_eq_length _ _ Ho).
  destruct (strcasestr_simple start (snprintf 64 (LT :: tag ++ [GT])));
    [|reflexivity].
  now rewrite <- (strcasestr_simple_needle_ci _ _ _ Hc).
Qed.

Lemma extract_tag_content_tag_case_witness :
  ci_eq (lit "Memo") (lit "MEMO") /\
  extract_tag_content (lit "<MEMO>rent</memo>") (lit "Memo") MAX_FIELD
  = extract_tag_content (lit "<MEMO>rent</memo>") (lit "MEMO") MAX_FIELD.
Proof.
  split; [reflexivity|].
  apply (extract_tag_content_tag_case
           (lit "<MEMO>rent</memo>") (lit "Memo") (lit "MEMO") MAX_FIELD).
  reflexivity.
Defined.

(** ** Trimming *)

Lemma skip_space_split s :
  exists lead, s = lead ++ skip_space s /\ forallb isspace lead = true.
Proof.
  induction s as [|c s (lead & Hs & Hl)]; [now exists []|].
  simpl. destruct (isspace c) eqn:E.
  - exists (c :: lead). simpl. rewrite E, Hl. split; [now f_equal | reflexivity].
  - now exists [].
Qed.

Lemma skip_space_head s c rest :
  skip_space s = c :: rest -> isspace c = false.
Proof.
  induction s as [|x s IH]; [discriminate|]. simpl.
  destruct (isspace x) eqn:E; [exact IH | congruence].
Qed.

Lemma chop_space_split s :
  exists trail, s = chop_space s ++ trail /\ forallb isspace trail = true.
Proof.
  induction s as [|c s (trail & Hs & Ht)]; [now exists []|].
  simpl. destruct (chop_space s) as [|y t] eqn:E.
  - destruct (isspace c) eqn:Ec.
    + exists (c :: trail). simpl in *. rewrite Ec, Ht.
      split; [now f_equal | reflexivity].
    + exists trail. simpl in *. split; [now f_equal | assumption].
  - exists trail. split; [|assumption]. simpl. f_equal. exact Hs.
Qed.

Lemma chop_space_last : forall s body c,
  chop_space s = body ++ [c] -> isspace c = false.
Proof.
  induction s as [|x s IH]; intros body c H.
  - now destruct body.
  - simpl in H. destruct (chop_space s) as [|y t] eqn:E.
    + destruct (isspace x) eqn:Ex; [now destruct body|].
      destruct body as [|b body]; [simpl in H; congruence|].
      injection H as _ H. now destruct body.
    + destruct body as [|b body]; [discriminate H|].
      injection H as _ H. now apply (IH body).
Qed.

Lemma chop_space_head s c rest :
  chop_space s = c :: rest -> exists rest', s = c :: rest'.
Proof.
  destruct s as [|x s]; [discriminate|]. simpl.
  destruct (chop_space s); [destruct (isspace x)|];
    intros [= <- _] || discriminate; eauto.
Qed.

Lemma chop_space_nil s : chop_space s = [] <-> forallb isspace s = true.
Proof.
  induction s as [|c s IH]; simpl; [tauto|].
  destruct (chop_space s) as [|y t].
  - destruct (isspace c); simpl; [tauto|]. split; discriminate.
  - split; [discriminate|]. intro H. apply andb_true_iff in H as [_ H].
    apply IH in H. discriminate H.
Qed.

Lemma trim_inplace_nil s :
  trim_inplace s = [] <-> forallb isspace s = true.
Proof.
  unfold trim_inplace. destruct (skip_space_split s) as (lead & Hs & Hlead).
  rewrite chop_space_nil. rewrite Hs at 2. now rewrite forallb_app, Hlead.
Qed.

Lemma skip_space_fixed s :
  (forall c rest, s = c :: rest -> isspace c = false) -> skip_space s = s.
Proof.
  destruct s as [|c s]; [reflexivity|]. intro H. simpl.
  now rewrite (H c s eq_refl).
Qed.

Lemma chop_space_fixed : forall s,
  (forall body c, s = body ++ [c] -> isspace c = false) -> chop_space s = s.
Proof.
  induction s as [|x s IH]; intro H; [reflexivity|]. simpl.
  destruct s as [|y s].
  - simpl. now rewrite (H [] x eq_refl).
  - rewrite IH; [reflexivity|].
    intros body c Hb. apply (H (x :: body) c). simpl. now rewrite Hb.
Qed.

(** X7: [trim_inplace] removes a run of whitespace at each end and
    nothing else: the string is the removed leading whitespace, the
    result and the removed trailing whitespace; a non-empty result
    neither begins nor ends with whitespace; and the result is empty
    exactly when the string holds whitespace only. *)
Theorem trim_inplace_spec s :
  (exists lead trail,
      s = lead ++ trim_inplace s ++ trail /\
      forallb isspace lead = true /\ forallb isspace trail = true) /\
  (forall c rest, trim_inplace s = c :: rest -> isspace c = false) /\
  (forall body c, trim_inplace s = body ++ [c] -> isspace c = false) /\
  (trim_inplace s = [] <-> forallb isspace s = true).
Proof.
  unfold trim_inplace.
  destruct (skip_space_split s) as (lead & Hs & Hlead).
  destruct (chop_space_split (skip_space s)) as (trail & Ht & Htrail).
  split; [|split; [|split]].
  - exists lead, trail. rewrite <- Ht. auto.
  - intros c rest H. apply chop_space_head in H as (rest' & H).
    now apply skip_space_head in H.
  - apply chop_space_last.
  - rewrite chop_space_nil. rewrite Hs at 2.
    now rewrite forallb_app, Hlead.
Qed.

(** X8: trimming twice is trimming once, and trimming never lengthens
    the string. *)
Theorem trim_inplace_idempotent s :
  trim_inplace (trim_inplace s) = trim_inplace s /\
  length (trim_inplace s) <= length s.
Proof.
  split; [|apply trim_inplace_length].
  destruct (trim_inplace_spec s) as (_ & Hhead & Hlast & _).
  unfold trim_inplace at 1.
  rewrite (skip_space_fixed _ Hhead). now apply chop_space_fixed.
Qed.

(** ** Newline removal *)

Lemma sanitize_no_newline s : ~ In CR (sanitize s) /\ ~ In LF (sanitize s).
Proof.
  unfold sanitize. split; intro H; apply in_map_iff in H as (c & Hc & _);
    destruct (Ascii.eqb_spec c CR) as [E1|E1];
    destruct (Ascii.eqb_spec c LF) as [E2|E2];
    cbn [orb] in Hc; try discriminate Hc; congruence.
Qed.

(** X9: the payee and the memo of a record, as they go on the P and M
    lines, hold no carriage return and no line feed, so that each of
    these lines is one line of the output; the newline removal keeps
    the length of the text and every other character in its place. *)
Theorem payee_and_memo_on_one_line block_start :
  let f := fields_of block_start in
  (~ In CR (payee (name f)) /\ ~ In LF (payee (name f))) /\
  (~ In CR (memo f) /\ ~ In LF (memo f)) /\
  (forall s, length (sanitize s) = length s) /\
  (forall s i c, nth_error s i = Some c ->
     c <> CR -> c <> LF -> nth_error (sanitize s) i = Some c).
Proof.
  cbv zeta. unfold fields_of, sanitize_fields. cbn [name memo].
  split; [|split; [apply sanitize_no_newline|split]].
  - unfold payee. destruct (is_empty (sanitize _)).
    + split; intro H; cbv in H; intuition discriminate.
    + apply sanitize_no_newline.
  - intro s. apply length_map.
  - intros s i c H Hcr Hlf. unfold sanitize.
    rewrite nth_error_map, H. cbn [option_map].
    destruct (Ascii.eqb_spec c CR); [contradiction|].
    destruct (Ascii.eqb_spec c LF); [contradiction|]. reflexivity.
Qed.

(** ** Dates and amounts *)

(** X10: the date conversion reads the first 8 characters of the token
    only: whatever follows them (a time of day, a time zone) changes
    neither the success nor the result. *)
Theorem ofxdate_ignores_suffix date suffix outlen :
  length date = 8 ->
  ofxdate_to_mmddyyyy (date ++ suffix) outlen
  = ofxdate_to_mmddyyyy date outlen.
Proof.
  intro H. rewrite <- (ofxdate_prefix (date ++ suffix))
    by (rewrite length_app; lia).
  rewrite firstn_app, H, Nat.sub_diag, firstn_all2 by lia.
  simpl. now rewrite app_nil_r.
Qed.

Lemma ofxdate_ignores_suffix_witness :
  length (lit "20251128") = 8 /\
  ofxdate_to_mmddyyyy (lit "20251128" ++ lit "120000.000[-5:EST]") 16
  = ofxdate_to_mmddyyyy (lit "20251128") 16.
Proof.
  split; [reflexivity|].
  apply (ofxdate_ignores_suffix (lit "20251128") (lit "120000.000[-5:EST]") 16).
  reflexivity.
Defined.

Lemma amt_clean_loop_bounded size : forall rest ai,
  ai < size ->
  ai + length (amt_clean_loop rest ai size) < size /\
  exists dropped, strip_commas rest = amt_clean_loop rest ai size ++ dropped.
Proof.
  induction rest as [|c rest IH]; intros ai H; simpl.
  - split; [lia | now exists []].
  - destruct (Nat.ltb_spec (ai + 1) size) as [L|L].
    + unfold strip_commas in *. simpl.
      destruct (Ascii.eqb c COMMA); simpl.
      * apply IH. lia.
      * destruct (IH (S ai)) as (Hlen & dropped & Hd); [lia|].
        split; [lia|]. exists dropped. now rewrite Hd.
    + simpl. split; [lia|]. eexists. reflexivity.
Qed.

(** X11: for an amount token of any length the comma-stripping loop
    stores fewer than MAX_FIELD characters, so the cleaned amount and its
    NUL fit the buffer, and what it stores is the beginning of the token
    without its commas. *)
Theorem clean_amount_bounded amt :
  length (clean_amount amt) < MAX_FIELD /\
  exists dropped, strip_commas amt = clean_amount amt ++ dropped.
Proof.
  unfold clean_amount.
  destruct (amt_clean_loop_bounded MAX_FIELD amt 0 MAX_FIELD_pos) as [H1 H2].
  split; [exact H1 | exact H2].
Qed.

(** ** The pass, continued *)

Lemma loop_body_stdout cfg block_start st :
  stdout (loop_body cfg block_start st) = stdout st ++ trace_of cfg block_start.
Proof.
  unfold trace_of. destruct (emitted block_start) eqn:E.
  - unfold emitted in E. apply negb_true_iff in E.
    unfold loop_body. fold (fields_of block_start).
    rewrite E, date_blocks, date_line.
    assert (Hn : (if is_empty (name (fields_of block_start))
                  then name (fields_of block_start)
                  else sanitize (name (fields_of block_start)))
                 = name (fields_of block_start)).
    { rewrite name_sanitized.
      now destruct (is_empty (name (fields_of block_start))). }
    rewrite Hn, payee_line.
    rewrite clean_amount_strip by apply trnamt_fits.
    unfold trace_line.
    destruct (2 <=? verbosity cfg)%Z,
      (is_empty (memo (fields_of block_start))), (memoFlag cfg);
      cbn [stdout fprintf printf negb andb];
      rewrite ?app_nil_r; reflexivity.
  - rewrite loop_body_skip by assumption. cbn [andb]. now rewrite app_nil_r.
Qed.

Lemma run_stdout cfg : forall recs st,
  stdout (fold_left (fun s bs => loop_body cfg bs s) recs st)
  = stdout st ++ flat_map (trace_of cfg) recs.
Proof.
  induction recs as [|bs recs IH]; intro st.
  - cbn [fold_left flat_map]. now rewrite app_nil_r.
  - rewrite fold_left_cons, IH, loop_body_stdout. cbn [flat_map].
    now rewrite app_assoc.
Qed.

Lemma flat_map_filter_singleton {A B} (p : A -> bool) (f : A -> B) l :
  flat_map (fun x => if p x then [f x] else []) l = map f (filter p l).
Proof.
  induction l as [|a l IH]; [reflexivity|]. simpl.
  destruct (p a); simpl; now rewrite IH.
Qed.

(** X12: with a verbosity below 2 the pass prints nothing on stdout; with
    2 or more it prints one line per emitted record, in the order of the
    input: the date of the D line, the first 16 characters of the name
    (empty when there is none), the first 8 of the memo, or EXCLUDED for
    a memo that is left out of the output, and the cleaned amount. *)
Theorem trace_on_stdout cfg file :
  exists st,
    convert cfg file = Some st /\
    ((verbosity cfg < 2)%Z -> stdout st = []) /\
    ((2 <= verbosity cfg)%Z ->
     stdout st
     = map (fun bs => trace_line cfg (fields_of bs))
         (filter emitted (records (c_str file)))).
Proof.
  eexists. split; [apply convert_run|].
  rewrite run_stdout. cbn [stdout start_state fprintf init_state app].
  unfold trace_of. split; intro H.
  - destruct (Z.leb_spec 2 (verbosity cfg)) as [L|L]; [lia|].
    induction (records (c_str file)) as [|bs l IH]; [reflexivity|].
    cbn [flat_map]. now rewrite andb_false_r.
  - destruct (Z.leb_spec 2 (verbosity cfg)) as [L|L]; [|lia].
    rewrite <- flat_map_filter_singleton. apply flat_map_ext.
    intro bs. now rewrite andb_true_r.
Qed.

Lemma first_marker_end {A} (x : A) : forall l1 r m post,
  l1 ++ x :: r = m ++ post -> ~ In x m -> length m <= length l1.
Proof.
  induction l1 as [|a l1 IH]; intros r m post H Hm.
  - destruct m as [|b m]; [simpl; lia|].
    simpl in H. injection H as -> _. exfalso. apply Hm. now left.
  - destruct m as [|b m]; [simpl; lia|].
    simpl in H. injection H as _ H. simpl.
    apply le_n_S. apply (IH r m post H). intro Hx. apply Hm. now right.
Qed.

Lemma record_span_size scan block_start block_after :
  find_next_stmttrn scan = Some (block_start, block_after) ->
  19 + length block_after <= length scan.
Proof.
  intro H. apply find_next_stmttrn_Some in H.
  destruct H as (p & attrs & content & cl & Hp & Hattrs & Hgt & Hbs & Hcl & _).
  destruct Hp as (pre & -> & (m & post & Hm & Hci) & _).
  assert (Hlen : length m <= length attrs).
  { apply (first_marker_end GT attrs block_start m post); [congruence|].
    intro Hin. apply (in_map tolower) in Hin. rewrite Hci in Hin.
    cbv in Hin. intuition discriminate. }
  apply ci_eq_length in Hci, Hcl. cbn in Hci, Hcl.
  rewrite length_app, Hattrs, length_app. cbn [length].
  rewrite Hbs, !length_app. lia.
Qed.

Lemma scan_records_count : forall fuel scan,
  19 * length (scan_records fuel scan) <= length scan.
Proof.
  induction fuel as [|fuel IH]; intro scan; [simpl; lia|].
  rewrite scan_records_S.
  destruct (find_next_stmttrn scan) as [[bs ba]|] eqn:E; [|simpl; lia].
  apply record_span_size in E. specialize (IH ba). cbn [length]. lia.
Qed.

(** X13: a record takes at least 19 bytes of the input ("<STMTTRN", a
    '>' and "</STMTTRN>"), so the loop visits at most one record per 19
    bytes and the counter of emitted records ends at no more than the
    length of the text divided by 19. *)
Theorem record_count_bounded cfg file :
  19 * length (records (c_str file)) <= length (c_str file) /\
  exists st,
    convert cfg file = Some st /\
    (0 <= numTransactions st)%Z /\
    (19 * numTransactions st <= Z.of_nat (length (c_str file)))%Z.
Proof.
  pose proof (scan_records_count (S (length (c_str file))) (c_str file)) as H.
  fold (records (c_str file)) in H. split; [exact H|].
  eexists. split; [apply convert_run|].
  rewrite run_count. cbn [numTransactions start_state fprintf init_state].
  pose proof (filter_length_le emitted (records (c_str file))). lia.
Qed.

Lemma existsb_pointwise {A} (p q : A -> bool) l :
  (forall x, p x = q x) -> existsb p l = existsb q l.
Proof.
  intro H. induction l as [|a l IH]; [reflexivity|].
  simpl. now rewrite H, IH.
Qed.

Lemma output_of_memoFlag c1 c2 block_start :
  memoFlag c1 = memoFlag c2 ->
  output_of c1 block_start = output_of c2 block_start.
Proof.
  intro H. unfold output_of, record_block, memo_lines. now rewrite H.
Qed.

(** X15: the verbosity has no effect on the result of the pass: two runs
    on the same input that agree on the memo option write the same
    output file and end with the same counter of emitted records and
    the same suppressed-memo flag. *)
Theorem verbosity_leaves_output c1 c2 file :
  memoFlag c1 = memoFlag c2 ->
  exists st1 st2,
    convert c1 file = Some st1 /\ convert c2 file = Some st2 /\
    fout st1 = fout st2 /\
    numTransactions st1 = numTransactions st2 /\
    printMemoWarning st1 = printMemoWarning st2.
Proof.
  intro H. do 2 eexists.
  split; [apply convert_run|]. split; [apply convert_run|].
  rewrite !run_fout, !run_count, !run_warning.
  split; [|split; [reflexivity|]].
  - f_equal. apply flat_map_ext. intro bs. now apply output_of_memoFlag.
  - f_equal. apply existsb_pointwise. intro bs. unfold suppresses.
    now rewrite H.
Qed.

Lemma verbosity_leaves_output_witness :
  exists st1 st2,
    convert {| memoFlag := false; verbosity := 0 |}
      (lit "<STMTTRN><TRNAMT>1<MEMO>rent</STMTTRN>") = Some st1 /\
    convert {| memoFlag := false; verbosity := 3 |}
      (lit "<STMTTRN><TRNAMT>1<MEMO>rent</STMTTRN>") = Some st2 /\
    fout st1 = fout st2 /\
    numTransactions st1 = numTransactions st2 /\
    printMemoWarning st1 = printMemoWarning st2.
Proof.
  apply (verbosity_leaves_output
           {| memoFlag := false; verbosity := 0 |}
           {| memoFlag := false; verbosity := 3 |}
           (lit "<STMTTRN><TRNAMT>1<MEMO>rent</STMTTRN>")).
  reflexivity.
Defined.

(** ** The lines of the output file *)

Ltac no_such_char :=
  let H := fresh in intro H; cbv in H; intuition discriminate.

Lemma split_lines_nonempty a : split_lines (a ++ [LF]) <> [].
Proof.
  induction a as [|c a IH]; [intro H; vm_compute in H; discriminate H|].
  cbn [app split_lines].
  destruct (Ascii.eqb c LF); [discriminate|].
  destruct (split_lines (a ++ [LF])); discriminate.
Qed.

Lemma split_lines_app a b :
  split_lines ((a ++ [LF]) ++ b) = split_lines (a ++ [LF]) ++ split_lines b.
Proof.
  induction a as [|c a IH]; [reflexivity|]. cbn [app split_lines].
  destruct (Ascii.eqb c LF); [now rewrite IH|].
  rewrite IH. pose proof (split_lines_nonempty a) as H.
  destruct (split_lines (a ++ [LF])); [contradiction | reflexivity].
Qed.

Lemma split_lines_one t : ~ In LF t -> split_lines (t ++ [LF]) = [t].
Proof.
  induction t as [|c t IH]; intro H; [reflexivity|]. cbn [app split_lines].
  destruct (Ascii.eqb_spec c LF) as [->|_]; [exfalso; apply H; now left|].
  rewrite IH; [reflexivity|]. intro Hin. apply H. now right.
Qed.

Lemma split_lines_concat ws :
  Forall (fun w => exists t, w = t ++ [LF]) ws ->
  split_lines (concat ws) = flat_map split_lines ws.
Proof.
  induction 1 as [|w ws [t ->] _ IH]; [reflexivity|].
  cbn [concat flat_map]. now rewrite split_lines_app, IH.
Qed.

Lemma line_ends prefix text : line prefix text = (lit prefix ++ text) ++ [LF].
Proof. unfold line. now rewrite app_assoc. Qed.

Lemma split_lines_line prefix text :
  ~ In LF (lit prefix) -> ~ In LF text ->
  split_lines (line prefix text) = [lit prefix ++ text].
Proof.
  intros Hp Ht. rewrite line_ends. apply split_lines_one.
  intro H. apply in_app_or in H. tauto.
Qed.

Lemma output_of_ends cfg bs :
  Forall (fun w => exists t, w = t ++ [LF]) (output_of cfg bs).
Proof.
  unfold output_of, record_block, memo_lines.
  destruct (emitted bs); [|constructor].
  destruct (memoFlag cfg && negb (is_empty (memo (fields_of bs))));
    cbn [app];
    repeat (apply Forall_cons; [eexists; apply line_ends|]);
    apply Forall_nil.
Qed.

Lemma flat_map_flat_map {A B C} (f : A -> list B) (g : B -> list C) l :
  flat_map g (flat_map f l) = flat_map (fun a => flat_map g (f a)) l.
Proof.
  induction l as [|a l IH]; cbn [flat_map]; [reflexivity|].
  now rewrite flat_map_app, IH.
Qed.

Lemma block_lines_writes cfg bs :
  block_lines cfg bs = flat_map split_lines (output_of cfg bs).
Proof. apply split_lines_concat, output_of_ends. Qed.

(** The lines of the file are the header line and the lines of the
    records, one record after the other. *)
Lemma file_lines_run cfg recs :
  file_lines (header :: flat_map (output_of cfg) recs)
  = lit "!Type:Bank" :: flat_map (block_lines cfg) recs.
Proof.
  unfold file_lines. rewrite split_lines_concat.
  - cbn [flat_map]. rewrite flat_map_flat_map.
    change (split_lines header) with [lit "!Type:Bank"]. cbn [app]. f_equal.
    apply flat_map_ext. intro bs. symmetry. apply block_lines_writes.
  - constructor; [exists (lit "!Type:Bank"); reflexivity|].
    apply Forall_flat_map, Forall_forall. intros bs _. apply output_of_ends.
Qed.

Lemma payee_no_newline bs : ~ In LF (payee (name (fields_of bs))).
Proof.
  unfold fields_of, sanitize_fields. cbn [name]. unfold payee.
  destruct (is_empty (sanitize _)); [no_such_char|].
  apply sanitize_no_newline.
Qed.

Lemma memo_no_newline bs : ~ In LF (memo (fields_of bs)).
Proof.
  unfold fields_of, sanitize_fields. cbn [memo]. apply sanitize_no_newline.
Qed.

Lemma strip_commas_no_newline s : ~ In LF s -> ~ In LF (strip_commas s).
Proof. intros H Hin. apply filter_In in Hin. tauto. Qed.

(** The lines of an emitted record: the D and T texts are cut at the
    line feeds they hold, every other text is one line. *)
Lemma block_lines_shape cfg bs :
  emitted bs = true ->
  let f := fields_of bs in
  block_lines cfg bs
  = split_lines (line "D" (qif_date (dtposted f)))
    ++ [lit "P" ++ payee (name f)]
    ++ (if memoFlag cfg && negb (is_empty (memo f))
        then [lit "M" ++ memo f] else [])
    ++ split_lines (line "T" (strip_commas (trnamt f)))
    ++ [lit "C*"; lit "^"].
Proof.
  intro E. cbv zeta. rewrite block_lines_writes.
  unfold output_of, record_block, memo_lines. rewrite E.
  assert (HP : split_lines (line "P" (payee (name (fields_of bs))))
               = [lit "P" ++ payee (name (fields_of bs))]).
  { apply split_lines_line; [no_such_char | apply payee_no_newline]. }
  assert (HM : split_lines (line "M" (memo (fields_of bs)))
               = [lit "M" ++ memo (fields_of bs)]).
  { apply split_lines_line; [no_such_char | apply memo_no_newline]. }
  destruct (memoFlag cfg && negb (is_empty (memo (fields_of bs))));
    cbn [app flat_map]; rewrite HP, ?HM;
    change (split_lines (line "C*" [])) with [lit "C*"];
    change (split_lines (line "^" [])) with [lit "^"];
    cbn [app]; rewrite ?app_nil_r; rewrite <- ?app_assoc; reflexivity.
Qed.

Lemma block_lines_plain cfg bs :
  emitted bs = true ->
  let f := fields_of bs in
  ~ In LF (qif_date (dtposted f)) -> ~ In LF (trnamt f) ->
  block_lines cfg bs
  = [lit "D" ++ qif_date (dtposted f); lit "P" ++ payee (name f)]
    ++ (if memoFlag cfg && negb (is_empty (memo f))
        then [lit "M" ++ memo f] else [])
    ++ [lit "T" ++ strip_commas (trnamt f); lit "C*"; lit "^"].
Proof.
  intros E f Hd Ht. rewrite (block_lines_shape cfg bs E). fold f.
  rewrite (split_lines_line "D") by (no_such_char || exact Hd).
  rewrite (split_lines_line "T")
    by (no_such_char || now apply strip_commas_no_newline).
  reflexivity.
Qed.

Lemma block_lines_skipped cfg bs : emitted bs = false -> block_lines cfg bs = [].
Proof. intro E. unfold block_lines, output_of. now rewrite E. Qed.

(** The texts and the lines of an emitted record that begin with M. *)
Lemma memo_write cfg bs w :
  emitted bs = true ->
  In w (output_of cfg bs) /\ is_memo_line w = true <->
  memoFlag cfg = true /\ memo (fields_of bs) <> [] /\
  w = line "M" (memo (fields_of bs)).
Proof.
  intro E. unfold output_of, record_block, memo_lines. rewrite E.
  rewrite <- is_empty_false.
  destruct (memoFlag cfg), (is_empty (memo (fields_of bs)));
    cbn [andb negb app In]; split;
    try (intros (? & ? & ?); congruence);
    try (intros ([<-|[<-|[<-|[<-|[<-|[]]]]]] & H); discriminate H).
  - intros ([<-|[<-|[<-|[<-|[<-|[<-|[]]]]]]] & H); try discriminate H. auto.
  - intros (_ & _ & ->). split; [auto | reflexivity].
Qed.

Lemma memo_line cfg bs l :
  emitted bs = true ->
  ~ In LF (qif_date (dtposted (fields_of bs))) ->
  ~ In LF (trnamt (fields_of bs)) ->
  In l (block_lines cfg bs) /\ is_memo_line l = true <->
  memoFlag cfg = true /\ memo (fields_of bs) <> [] /\
  l = lit "M" ++ memo (fields_of bs).
Proof.
  intros E Hd Ht. rewrite (block_lines_plain cfg bs E Hd Ht).
  rewrite <- is_empty_false.
  destruct (memoFlag cfg), (is_empty (memo (fields_of bs)));
    cbn [andb negb app In]; split;
    try (intros (? & ? & ?); congruence);
    try (intros ([<-|[<-|[<-|[<-|[<-|[]]]]]] & H); discriminate H).
  - intros ([<-|[<-|[<-|[<-|[<-|[<-|[]]]]]]] & H); try discriminate H. auto.
  - intros (_ & _ & ->). split; [auto | reflexivity].
Qed.

(** ** The fields, from the text of the buffer *)

Lemma is_empty_trim s : is_empty (trim_inplace s) = forallb isspace s.
Proof.
  destruct (forallb isspace s) eqn:E.
  - apply trim_inplace_nil in E. now rewrite E.
  - destruct (trim_inplace s) eqn:Et; [|reflexivity].
    apply trim_inplace_nil in Et. congruence.
Qed.

Lemma is_empty_map {A} (f : A -> A) (s : list A) :
  match map f s with [] => true | _ :: _ => false end
  = match s with [] => true | _ :: _ => false end.
Proof. now destruct s. Qed.

Lemma emitted_raw bs :
  emitted bs = negb (forallb isspace (extract_into bs "TRNAMT")).
Proof.
  unfold emitted, fields_of, sanitize_fields, trim_fields, extract_fields.
  cbn [trnamt]. now rewrite is_empty_trim.
Qed.

Lemma memo_raw bs :
  memo (fields_of bs)
  = map on_one_line (trim_inplace (extract_into bs "MEMO")) /\
  is_empty (memo (fields_of bs))
  = forallb isspace (extract_into bs "MEMO").
Proof.
  split; [reflexivity|].
  unfold fields_of, sanitize_fields, trim_fields, extract_fields, sanitize.
  cbn [memo]. unfold is_empty at 1. rewrite is_empty_map.
  apply is_empty_trim.
Qed.

Lemma block_nonempty cfg f : record_block cfg f <> [].
Proof. unfold record_block. discriminate. Qed.

Lemma app_changes {A} (l blk : list A) : blk <> [] -> l ++ blk <> l.
Proof.
  intros Hb H. apply (f_equal (@length A)) in H. rewrite length_app in H.
  destruct blk; [now apply Hb | cbn in H; lia].
Qed.

(** C1, amended: a record found by the scan adds a block to the output
    if and only if the TRNAMT text is non-empty after trimming, that
    is, holds a character that is not white space; the TRNAMT text is
    the one extracted at the first TRNAMT marker that lies between the
    content start of the record and the end of the buffer, not the
    closing marker of the record.  With an empty trimmed amount the
    iteration leaves the output, the counter of emitted records and
    the rest of the state as they were; otherwise it writes the block
    of the record, whose T line carries the trimmed amount less its
    commas, and adds one to the counter. *)
Theorem record_emitted_iff_amount_found cfg scan block_start block_after st :
  find_next_stmttrn scan = Some (block_start, block_after) ->
  let raw := extract_into block_start "TRNAMT" in
  let st' := loop_body cfg block_start st in
  searched_to_end block_start "TRNAMT" raw /\
  (trim_inplace raw = [] <-> forallb isspace raw = true) /\
  (fout st' <> fout st <-> trim_inplace raw <> []) /\
  (trim_inplace raw = [] -> st' = st) /\
  (trim_inplace raw <> [] ->
   fout st' = fout st ++ record_block cfg (fields_of block_start) /\
   In (line "T" (strip_commas (trim_inplace raw)))
     (record_block cfg (fields_of block_start)) /\
   numTransactions st' = (numTransactions st + 1)%Z).
Proof.
  intros _. cbv zeta.
  split; [apply extract_into_searched_to_end; apply Nat.ltb_lt; reflexivity|].
  split; [apply trim_inplace_nil|].
  change (trim_inplace (extract_into block_start "TRNAMT"))
    with (trnamt (fields_of block_start)).
  destruct (emitted block_start) eqn:E.
  - destruct (loop_body_emit cfg block_start st E) as (Hout & Hnum & _).
    unfold emitted in E. apply negb_true_iff, is_empty_false in E.
    split; [|split; [contradiction|]].
    + split; [auto|]. intros _. rewrite Hout.
      apply app_changes, block_nonempty.
    + intros _. split; [exact Hout|]. split; [|exact Hnum].
      unfold record_block. apply in_or_app. right. apply in_or_app. right.
      now left.
  - rewrite (loop_body_skip cfg block_start st E).
    unfold emitted in E. apply negb_false_iff, is_empty_true in E.
    split; [|split; [reflexivity | contradiction]].
    split; [intro H; now elim H | contradiction].
Qed.

(** An amount between blanks: the record is emitted with the trimmed
    amount on its T line. *)
Lemma record_emitted_iff_amount_found_witness :
  let cfg := {| memoFlag := false; verbosity := 1 |} in
  let scan := lit "<STMTTRN><TRNAMT> 5 </TRNAMT></STMTTRN>" in
  let block_start := lit "<TRNAMT> 5 </TRNAMT></STMTTRN>" in
  find_next_stmttrn scan = Some (block_start, []) /\
  extract_into block_start "TRNAMT" = lit " 5 " /\
  fout (loop_body cfg block_start start_state)
  = [header; line "D" []; line "P" (lit "(unknown)"); line "T" (lit "5");
     line "C*" []; line "^" []] /\
  numTransactions (loop_body cfg block_start start_state) = 1%Z.
Proof.
  cbv zeta. split; [reflexivity|]. split; [vm_compute; reflexivity|].
  destruct (record_emitted_iff_amount_found
              {| memoFlag := false; verbosity := 1 |}
              (lit "<STMTTRN><TRNAMT> 5 </TRNAMT></STMTTRN>")
              (lit "<TRNAMT> 5 </TRNAMT></STMTTRN>") [] start_state eq_refl)
    as (_ & _ & _ & _ & H).
  destruct H as (Hout & _ & Hnum); [vm_compute; discriminate|].
  split; [rewrite Hout; vm_compute; reflexivity | exact Hnum].
Defined.

(** C1 as stated fails: the first record below has no TRNAMT between its
    content start and its closing marker, so that its TRNAMT field is
    empty; the loop emits it all the same, with the amount of the record
    that follows, and counts two records. *)
Lemma record_without_amount_emitted :
  let cfg := {| memoFlag := false; verbosity := 1 |} in
  let file := lit "<STMTTRN><NAME>a</NAME></STMTTRN><STMTTRN><TRNAMT>2</TRNAMT></STMTTRN>" in
  let first := lit "<NAME>a</NAME></STMTTRN><STMTTRN><TRNAMT>2</TRNAMT></STMTTRN>" in
  let rest := lit "<STMTTRN><TRNAMT>2</TRNAMT></STMTTRN>" in
  find_next_stmttrn file = Some (first, rest) /\
  record_slice first rest = lit "<NAME>a</NAME>" /\
  extract_tag_content (record_slice first rest) (lit "TRNAMT") MAX_FIELD
  = None /\
  loop_body cfg first start_state
  = {| fout := [header; line "D" []; line "P" (lit "a"); line "T" (lit "2");
                line "C*" []; line "^" []];
       stdout := []; numTransactions := 1; printMemoWarning := false |} /\
  convert cfg file
  = Some {| fout := [header;
                     line "D" []; line "P" (lit "a"); line "T" (lit "2");
                     line "C*" []; line "^" [];
                     line "D" []; line "P" (lit "(unknown)");
                     line "T" (lit "2"); line "C*" []; line "^" []];
            stdout := []; numTransactions := 2;
            printMemoWarning := false |}.
Proof.
  cbv zeta. repeat split; vm_compute; reflexivity.
Qed.

(** C7, amended: the memo of a record is the MEMO text extracted at the
    first MEMO marker that lies between the content start of the record
    and the end of the buffer, not the closing marker of the record,
    trimmed and with every CR and LF turned into a space.  For every
    emitted record, the texts written hold one that begins with M if
    and only if the memo option is set and the MEMO text holds a
    character that is not white space, and that text is then "M", the
    memo and a line feed.  The same holds of the lines that the record
    adds to the file when neither its date nor its amount holds a line
    feed; a date or an amount that holds one is cut there into several
    lines, whatever they begin with.  The suppressed-memo flag ends
    true exactly when the memo option is not set and some emitted
    record has such a MEMO text. *)
Theorem memo_line_iff_memo_found cfg file :
  exists st,
    convert cfg file = Some st /\
    fout st = header :: flat_map (output_of cfg) (records (c_str file)) /\
    file_lines (fout st)
    = lit "!Type:Bank" :: flat_map (block_lines cfg) (records (c_str file)) /\
    (forall bs,
       In bs (records (c_str file)) ->
       forallb isspace (extract_into bs "TRNAMT") = false ->
       let raw := extract_into bs "MEMO" in
       let text := map on_one_line (trim_inplace raw) in
       let date := trim_inplace (extract_into bs "DTPOSTED") in
       let amount := trim_inplace (extract_into bs "TRNAMT") in
       searched_to_end bs "MEMO" raw /\
       (text <> [] <-> forallb isspace raw = false) /\
       (forall w, In w (output_of cfg bs) /\ is_memo_line w = true <->
                  memoFlag cfg = true /\ text <> [] /\ w = line "M" text) /\
       (~ In LF (qif_date date) -> ~ In LF amount ->
        forall l, In l (block_lines cfg bs) /\ is_memo_line l = true <->
                  memoFlag cfg = true /\ text <> [] /\ l = lit "M" ++ text)) /\
    (printMemoWarning st = true <->
     memoFlag cfg = false /\
     exists bs, In bs (records (c_str file)) /\
                forallb isspace (extract_into bs "TRNAMT") = false /\
                forallb isspace (extract_into bs "MEMO") = false).
Proof.
  eexists. split; [apply convert_run|]. rewrite run_fout, run_warning.
  replace (fout start_state) with [header] by reflexivity. cbn [app].
  split; [reflexivity|]. split; [apply file_lines_run|]. split.
  - intros bs _ E. cbv zeta.
    assert (E' : emitted bs = true) by now rewrite emitted_raw, E.
    clear E. rename E' into E.
    destruct (memo_raw bs) as [Hm He]. rewrite <- Hm.
    split; [apply extract_into_searched_to_end; apply Nat.ltb_lt; reflexivity|].
    split; [rewrite <- He; apply iff_sym, is_empty_false|].
    split; [intro w; now apply memo_write|].
    intros Hd Ht l. now apply memo_line.
  - cbn [printMemoWarning start_state fprintf init_state orb].
    rewrite existsb_exists. unfold suppresses.
    split.
    + intros (bs & Hin & H).
      apply andb_true_iff in H as [H Hflag].
      apply andb_true_iff in H as [He Hmemo].
      apply negb_true_iff in Hflag. apply negb_true_iff in Hmemo.
      rewrite emitted_raw in He. apply negb_true_iff in He.
      split; [exact Hflag|]. exists bs.
      destruct (memo_raw bs) as [_ <-]. auto.
    + intros (Hflag & bs & Hin & He & Hmemo). exists bs.
      split; [assumption|]. rewrite emitted_raw.
      destruct (memo_raw bs) as [_ ->].
      now rewrite He, Hmemo, Hflag.
Qed.

(** A memo of two lines between blanks, with and without the option. *)
Lemma memo_line_iff_memo_found_witness :
  let file := lit "<STMTTRN><TRNAMT>5<MEMO> rent" ++ [CR; LF]
              ++ lit "due </STMTTRN>" in
  (exists st,
      convert {| memoFlag := true; verbosity := 1 |} file = Some st /\
      fout st = [header; line "D" []; line "P" (lit "(unknown)");
                 line "M" (lit "rent  due"); line "T" (lit "5");
                 line "C*" []; line "^" []] /\
      file_lines (fout st)
      = [lit "!Type:Bank"; lit "D"; lit "P(unknown)"; lit "Mrent  due";
         lit "T5"; lit "C*"; lit "^"] /\
      printMemoWarning st = false) /\
  (exists st,
      convert {| memoFlag := false; verbosity := 1 |} file = Some st /\
      file_lines (fout st)
      = [lit "!Type:Bank"; lit "D"; lit "P(unknown)"; lit "T5"; lit "C*";
         lit "^"] /\
      printMemoWarning st = true).
Proof.
  cbv zeta. split.
  - destruct (memo_line_iff_memo_found
                {| memoFlag := true; verbosity := 1 |}
                (lit "<STMTTRN><TRNAMT>5<MEMO> rent" ++ [CR; LF]
                 ++ lit "due </STMTTRN>"))
      as (st & Hc & Hf & Hl & _ & Hw).
    exists st. split; [exact Hc|]. rewrite Hl, Hf.
    split; [vm_compute; reflexivity|]. split; [vm_compute; reflexivity|].
    destruct (printMemoWarning st); [|reflexivity].
    destruct Hw as [Hw _]. destruct (Hw eq_refl) as [Hflag _].
    discriminate Hflag.
  - destruct (memo_line_iff_memo_found
                {| memoFlag := false; verbosity := 1 |}
                (lit "<STMTTRN><TRNAMT>5<MEMO> rent" ++ [CR; LF]
                 ++ lit "due </STMTTRN>"))
      as (st & Hc & _ & Hl & _ & Hw).
    exists st. split; [exact Hc|]. rewrite Hl.
    split; [vm_compute; reflexivity|].
    apply Hw. split; [reflexivity|].
    exists (lit "<TRNAMT>5<MEMO> rent" ++ [CR; LF] ++ lit "due </STMTTRN>").
    split; [vm_compute; auto|]. split; vm_compute; reflexivity.
Defined.

(** C7 as stated fails.  In the first input the only emitted record has
    no MEMO between its content start and its closing marker, and the
    record that has one is dropped for want of an amount: yet with the
    memo option the emitted record gets the line Mrent, and without it
    the suppressed-memo flag is raised.  In the second input the record
    has no MEMO at all and the memo option is not set, and the file
    holds a line that begins with M, cut from the amount. *)
Lemma memo_of_dropped_record_used :
  let file := lit "<STMTTRN><TRNAMT>1</TRNAMT></STMTTRN><STMTTRN><MEMO>rent</MEMO></STMTTRN>" in
  let first := lit "<TRNAMT>1</TRNAMT></STMTTRN><STMTTRN><MEMO>rent</MEMO></STMTTRN>" in
  let second := lit "<MEMO>rent</MEMO></STMTTRN>" in
  let file' := lit "<STMTTRN><TRNAMT>5
Mfoo</TRNAMT></STMTTRN>" in
  (records (c_str file) = [first; second] /\
   emitted first = true /\ emitted second = false /\
   record_slice first (lit "<STMTTRN><MEMO>rent</MEMO></STMTTRN>")
   = lit "<TRNAMT>1</TRNAMT>" /\
   extract_tag_content (lit "<TRNAMT>1</TRNAMT>") (lit "MEMO") MAX_FIELD
   = None /\
   convert {| memoFlag := true; verbosity := 1 |} file
   = Some {| fout := [header; line "D" []; line "P" (lit "(unknown)");
                      line "M" (lit "rent"); line "T" (lit "1");
                      line "C*" []; line "^" []];
             stdout := []; numTransactions := 1;
             printMemoWarning := false |} /\
   convert {| memoFlag := false; verbosity := 1 |} file
   = Some {| fout := [header; line "D" []; line "P" (lit "(unknown)");
                      line "T" (lit "1"); line "C*" []; line "^" []];
             stdout := []; numTransactions := 1;
             printMemoWarning := true |}) /\
  (extract_tag_content (c_str file') (lit "MEMO") MAX_FIELD = None /\
   option_map (fun st => file_lines (fout st))
     (convert {| memoFlag := false; verbosity := 1 |} file')
   = Some [lit "!Type:Bank"; lit "D"; lit "P(unknown)"; lit "T5";
           lit "Mfoo"; lit "C*"; lit "^"]).
Proof.
  cbv zeta. repeat split; vm_compute; reflexivity.
Qed.

Lemma output_of_raw cfg bs :
  let amount := trim_inplace (extract_into bs "TRNAMT") in
  let memo := map on_one_line (trim_inplace (extract_into bs "MEMO")) in
  let name := map on_one_line (trim_inplace (extract_into bs "NAME")) in
  let date := trim_inplace (extract_into bs "DTPOSTED") in
  output_of cfg bs =
  if forallb isspace (extract_into bs "TRNAMT") then [] else
    [lit "D" ++ qif_date date ++ [LF]; lit "P" ++ payee name ++ [LF]]
    ++ (if memoFlag cfg && negb (forallb isspace (extract_into bs "MEMO"))
        then [lit "M" ++ memo ++ [LF]] else [])
    ++ [lit "T" ++ strip_commas amount ++ [LF]; lit "C*" ++ [LF];
        lit "^" ++ [LF]].
Proof.
  cbv zeta. unfold output_of. rewrite emitted_raw.
  destruct (forallb isspace (extract_into bs "TRNAMT")); [reflexivity|].
  cbn [negb]. unfold record_block, memo_lines.
  destruct (memo_raw bs) as [_ ->]. reflexivity.
Qed.

(** C9, amended: the output is the "!Type:Bank" text, written once,
    followed by the blocks of the emitted records in the order in which
    the records lie in the input.  A block is the D text, the P text,
    the M text when the memo option is set and the MEMO text holds a
    character that is not white space, the T text, "C*" and "^", each
    ended by a line feed; the TRNAMT and MEMO texts are those extracted
    at the first marker that lies between the content start of the
    record and the end of the buffer, not the closing marker of the
    record.  The lines of the file are the header line and the lines of
    the blocks; each text of a block is one line when neither the date
    nor the amount of the record holds a line feed, and otherwise the D
    and T texts are cut into several lines.  A record whose TRNAMT text
    is white space contributes nothing, and the counter ends at the
    number of emitted records. *)
Theorem output_file_layout cfg file :
  exists st,
    convert cfg file = Some st /\
    fout st = header :: flat_map (output_of cfg) (records (c_str file)) /\
    header = lit "!Type:Bank" ++ [LF] /\
    ~ In header (flat_map (output_of cfg) (records (c_str file))) /\
    in_input_order (c_str file) (records (c_str file)) /\
    (forall bs,
       let amount := trim_inplace (extract_into bs "TRNAMT") in
       let memo := map on_one_line (trim_inplace (extract_into bs "MEMO")) in
       let name := map on_one_line (trim_inplace (extract_into bs "NAME")) in
       let date := trim_inplace (extract_into bs "DTPOSTED") in
       searched_to_end bs "TRNAMT" (extract_into bs "TRNAMT") /\
       searched_to_end bs "MEMO" (extract_into bs "MEMO") /\
       output_of cfg bs =
       (if forallb isspace (extract_into bs "TRNAMT") then [] else
          [lit "D" ++ qif_date date ++ [LF]; lit "P" ++ payee name ++ [LF]]
          ++ (if memoFlag cfg
                 && negb (forallb isspace (extract_into bs "MEMO"))
              then [lit "M" ++ memo ++ [LF]] else [])
          ++ [lit "T" ++ strip_commas amount ++ [LF]; lit "C*" ++ [LF];
              lit "^" ++ [LF]]) /\
       (forallb isspace (extract_into bs "TRNAMT") = false ->
        ~ In LF (qif_date date) -> ~ In LF amount ->
        block_lines cfg bs =
        [lit "D" ++ qif_date date; lit "P" ++ payee name]
        ++ (if memoFlag cfg
               && negb (forallb isspace (extract_into bs "MEMO"))
            then [lit "M" ++ memo] else [])
        ++ [lit "T" ++ strip_commas amount; lit "C*"; lit "^"])) /\
    file_lines (fout st)
    = lit "!Type:Bank" :: flat_map (block_lines cfg) (records (c_str file)) /\
    numTransactions st
    = Z.of_nat
        (length
           (filter (fun bs => negb (forallb isspace (extract_into bs "TRNAMT")))
              (records (c_str file)))).
Proof.
  eexists. split; [apply convert_run|]. rewrite run_fout, run_count.
  replace (fout start_state) with [header] by reflexivity. cbn [app].
  split; [reflexivity|]. split; [reflexivity|]. split.
  { intro H. apply in_flat_map in H as (bs & _ & H).
    now apply header_not_in_block in H. }
  split; [apply records_in_input_order|]. split; [|split].
  - intro bs. cbv zeta.
    split; [apply extract_into_searched_to_end; apply Nat.ltb_lt; reflexivity|].
    split; [apply extract_into_searched_to_end; apply Nat.ltb_lt; reflexivity|].
    split; [apply output_of_raw|].
    intros E Hd Ht. assert (E' : emitted bs = true) by now rewrite emitted_raw, E.
    rewrite (block_lines_plain cfg bs E' Hd Ht).
    destruct (memo_raw bs) as [_ ->]. reflexivity.
  - apply file_lines_run.
  - cbn [numTransactions start_state fprintf init_state Z.add].
    do 2 f_equal. apply filter_ext. intro bs. apply emitted_raw.
Qed.

(** Two records in a file with text around them, each with a memo, the
    second with a name in two lines, memos included. *)
Lemma output_file_layout_witness :
  let cfg := {| memoFlag := true; verbosity := 1 |} in
  let file := lit "<OFX><STMTTRN><DTPOSTED>20251128<TRNAMT>-1,234.50<NAME>Coffee<MEMO>beans</STMTTRN>
<STMTTRN><TRNAMT> 7 <NAME>Corner
shop<MEMO>tip</STMTTRN></OFX>" in
  exists st,
    convert cfg file = Some st /\
    fout st
    = [header;
       line "D" (lit "11/28/2025"); line "P" (lit "Coffee");
       line "M" (lit "beans");
       line "T" (lit "-1234.50"); line "C*" []; line "^" [];
       line "D" []; line "P" (lit "Corner shop"); line "M" (lit "tip");
       line "T" (lit "7"); line "C*" []; line "^" []] /\
    file_lines (fout st)
    = [lit "!Type:Bank";
       lit "D11/28/2025"; lit "PCoffee"; lit "Mbeans"; lit "T-1234.50";
       lit "C*"; lit "^";
       lit "D"; lit "PCorner shop"; lit "Mtip"; lit "T7"; lit "C*"; lit "^"] /\
    numTransactions st = 2%Z.
Proof.
  cbv zeta.
  destruct (output_file_layout
              {| memoFlag := true; verbosity := 1 |}
              (lit "<OFX><STMTTRN><DTPOSTED>20251128<TRNAMT>-1,234.50<NAME>Coffee<MEMO>beans</STMTTRN>
<STMTTRN><TRNAMT> 7 <NAME>Corner
shop<MEMO>tip</STMTTRN></OFX>"))
    as (st & Hc & Hf & _ & _ & _ & _ & Hl & Hn).
  exists st. split; [exact Hc|]. rewrite Hl, Hf, Hn.
  split; [vm_compute; reflexivity|]. split; vm_compute; reflexivity.
Defined.

(** C9 as stated fails.  With memos included, the block of the first
    record below holds the line Mrent though the record has no MEMO
    between its content start and its closing marker; and a date that
    holds a line feed gives a block of six lines, one of which begins
    with M, though memos are not included and the record has no MEMO. *)
Lemma block_with_foreign_memo_line :
  let file := lit "<STMTTRN><TRNAMT>1</TRNAMT></STMTTRN><STMTTRN><TRNAMT>2</TRNAMT><MEMO>rent</MEMO></STMTTRN>" in
  let first := lit "<TRNAMT>1</TRNAMT></STMTTRN><STMTTRN><TRNAMT>2</TRNAMT><MEMO>rent</MEMO></STMTTRN>" in
  let rest := lit "<STMTTRN><TRNAMT>2</TRNAMT><MEMO>rent</MEMO></STMTTRN>" in
  let file' := lit "<STMTTRN><DTPOSTED>soon
Monday</DTPOSTED><TRNAMT>5</TRNAMT></STMTTRN>" in
  (find_next_stmttrn file = Some (first, rest) /\
   record_slice first rest = lit "<TRNAMT>1</TRNAMT>" /\
   extract_tag_content (record_slice first rest) (lit "MEMO") MAX_FIELD
   = None /\
   option_map (fun st => file_lines (fout st))
     (convert {| memoFlag := true; verbosity := 1 |} file)
   = Some [lit "!Type:Bank";
           lit "D"; lit "P(unknown)"; lit "Mrent"; lit "T1"; lit "C*";
           lit "^";
           lit "D"; lit "P(unknown)"; lit "Mrent"; lit "T2"; lit "C*";
           lit "^"]) /\
  (extract_tag_content (c_str file') (lit "MEMO") MAX_FIELD = None /\
   option_map (fun st => file_lines (fout st))
     (convert {| memoFlag := false; verbosity := 1 |} file')
   = Some [lit "!Type:Bank"; lit "Dsoon"; lit "Monday"; lit "P(unknown)";
           lit "T5"; lit "C*"; lit "^"]).
Proof.
  cbv zeta. repeat split; vm_compute; reflexivity.
Qed.

(** ** What the memo option changes *)

Lemma filter_flat_map {A B} (p : B -> bool) (f : A -> list B) l :
  filter p (flat_map f l) = flat_map (fun x => filter p (f x)) l.
Proof.
  induction l as [|a l IH]; [reflexivity|].
  simpl. now rewrite filter_app, IH.
Qed.

Lemma existsb_flat_map {A B} (p : B -> bool) (f : A -> list B) l :
  existsb p (flat_map f l) = existsb (fun x => existsb p (f x)) l.
Proof.
  induction l as [|a l IH]; [reflexivity|].
  simpl. now rewrite existsb_app, IH.
Qed.

Lemma filter_fixed {A} (p : A -> bool) : forall l,
  filter p l = l <-> existsb (fun x => negb (p x)) l = false.
Proof.
  induction l as [|a l IH]; simpl; [tauto|].
  destruct (p a) eqn:E; simpl.
  - rewrite <- IH. split; [now intros [= H] | now intros ->].
  - split; [|discriminate]. intro H.
    pose proof (filter_length_le p l) as Hl. rewrite H in Hl. simpl in Hl. lia.
Qed.

Section MemoOption.

Variables v_on v_off : Z.

Let with_memo := {| memoFlag := true; verbosity := v_on |}.
Let without_memo := {| memoFlag := false; verbosity := v_off |}.

Lemma output_without_memo block_start :
  filter (fun l => negb (is_memo_line l)) (output_of with_memo block_start)
  = output_of without_memo block_start.
Proof.
  unfold output_of, record_block, memo_lines.
  destruct (emitted block_start); [|reflexivity].
  cbn [memoFlag with_memo without_memo andb].
  destruct (is_empty (memo (fields_of block_start))); reflexivity.
Qed.

Lemma memo_line_in_block block_start :
  existsb (fun l => negb (negb (is_memo_line l)))
    (output_of with_memo block_start)
  = suppresses without_memo block_start.
Proof.
  unfold output_of, record_block, memo_lines, suppresses.
  destruct (emitted block_start); [|reflexivity].
  cbn [memoFlag with_memo without_memo andb negb].
  destruct (is_empty (memo (fields_of block_start))); reflexivity.
Qed.

Lemma filter_cons_keep {A} (p : A -> bool) a l :
  p a = true -> filter p (a :: l) = a :: filter p l.
Proof. intro H. simpl. now rewrite H. Qed.

(** The two runs side by side. *)
Lemma memo_runs file :
  exists st_on st_off,
    convert with_memo file = Some st_on /\
    convert without_memo file = Some st_off /\
    fout st_off = filter (fun l => negb (is_memo_line l)) (fout st_on) /\
    numTransactions st_off = numTransactions st_on /\
    printMemoWarning st_off
    = existsb (fun l => negb (negb (is_memo_line l))) (fout st_on).
Proof.
  do 2 eexists. split; [apply convert_run|]. split; [apply convert_run|].
  rewrite !run_fout, !run_count, run_warning.
  replace (fout start_state) with [header] by reflexivity.
  cbn [app printMemoWarning start_state fprintf init_state orb existsb].
  split; [|split; [reflexivity|]].
  - rewrite filter_cons_keep by reflexivity. f_equal.
    rewrite filter_flat_map. apply flat_map_ext. intro bs.
    symmetry. apply output_without_memo.
  - change (negb (negb (is_memo_line header))) with false. cbn [orb].
    rewrite existsb_flat_map. apply existsb_pointwise. intro bs.
    symmetry. apply memo_line_in_block.
Qed.

Lemma lines_without_memo bs :
  (emitted bs = true ->
   ~ In LF (qif_date (dtposted (fields_of bs))) /\
   ~ In LF (trnamt (fields_of bs))) ->
  filter (fun l => negb (is_memo_line l)) (block_lines with_memo bs)
  = block_lines without_memo bs.
Proof.
  intro H. destruct (emitted bs) eqn:E.
  - destruct (H eq_refl) as [Hd Ht].
    rewrite (block_lines_plain with_memo bs E Hd Ht),
      (block_lines_plain without_memo bs E Hd Ht).
    cbn [memoFlag with_memo without_memo andb].
    destruct (is_empty (memo (fields_of bs))); reflexivity.
  - now rewrite !block_lines_skipped.
Qed.

Lemma flat_map_pointwise_in {A B} (f g : A -> list B) l :
  (forall a, In a l -> f a = g a) -> flat_map f l = flat_map g l.
Proof.
  induction l as [|a l IH]; intro H; [reflexivity|]. cbn [flat_map].
  rewrite (H a) by now left. rewrite IH; [reflexivity|].
  intros a' Ha'. apply H. now right.
Qed.

(** X16: the memo option only adds M texts: on the same input, the
    texts written to the output (one for each call of fprintf) without
    the option are those written with it, less the ones that begin with
    M, and both runs count the same number of emitted records.  Where
    no emitted record has a line feed in its date or in its amount, the
    same holds of the lines of the two files: the file written without
    the option is the file written with it, less the lines that begin
    with M. *)
Theorem memo_option_adds_writes file :
  exists st_on st_off,
    convert with_memo file = Some st_on /\
    convert without_memo file = Some st_off /\
    fout st_off = filter (fun w => negb (is_memo_line w)) (fout st_on) /\
    numTransactions st_off = numTransactions st_on /\
    ((forall bs, In bs (records (c_str file)) -> emitted bs = true ->
        ~ In LF (qif_date (dtposted (fields_of bs))) /\
        ~ In LF (trnamt (fields_of bs))) ->
     file_lines (fout st_off)
     = filter (fun l => negb (is_memo_line l)) (file_lines (fout st_on))).
Proof.
  do 2 eexists. split; [apply convert_run|]. split; [apply convert_run|].
  rewrite !run_fout, !run_count.
  replace (fout start_state) with [header] by reflexivity. cbn [app].
  split; [|split; [reflexivity|]].
  - rewrite filter_cons_keep by reflexivity. f_equal.
    rewrite filter_flat_map. apply flat_map_ext. intro bs.
    symmetry. apply output_without_memo.
  - intro H. rewrite !file_lines_run.
    rewrite filter_cons_keep by reflexivity. f_equal.
    rewrite filter_flat_map. apply flat_map_pointwise_in. intros bs Hin.
    symmetry. apply lines_without_memo. now apply H.
Qed.

(** X17: the suppressed-memo warning is raised exactly when the memo
    option would have changed the output: the flag ends true in a run
    without the option if and only if the run with the option writes a
    different output file. *)
Theorem warning_iff_option_matters file :
  exists st_on st_off,
    convert with_memo file = Some st_on /\
    convert without_memo file = Some st_off /\
    (printMemoWarning st_off = true <-> fout st_on <> fout st_off).
Proof.
  destruct (memo_runs file) as (st_on & st_off & Hon & Hoff & Hf & _ & Hw).
  exists st_on, st_off. split; [exact Hon|]. split; [exact Hoff|].
  rewrite Hf, Hw. split.
  - intros H E. symmetry in E. apply filter_fixed in E. congruence.
  - intro H. destruct (existsb _ (fout st_on)) eqn:E; [reflexivity|].
    exfalso. apply H. symmetry. now apply filter_fixed.
Qed.

End MemoOption.

(** A record with a memo: the file written with the option holds the
    line Mrent, and the file written without it the other lines. *)
Lemma memo_option_adds_writes_witness :
  let file := lit "<STMTTRN><DTPOSTED>20251128<TRNAMT>5<MEMO>rent</STMTTRN>" in
  exists st_on st_off,
    convert {| memoFlag := true; verbosity := 1 |} file = Some st_on /\
    convert {| memoFlag := false; verbosity := 1 |} file = Some st_off /\
    file_lines (fout st_on)
    = [lit "!Type:Bank"; lit "D11/28/2025"; lit "P(unknown)"; lit "Mrent";
       lit "T5"; lit "C*"; lit "^"] /\
    file_lines (fout st_off)
    = [lit "!Type:Bank"; lit "D11/28/2025"; lit "P(unknown)"; lit "T5";
       lit "C*"; lit "^"].
Proof.
  cbv zeta.
  destruct (memo_option_adds_writes 1 1
              (lit "<STMTTRN><DTPOSTED>20251128<TRNAMT>5<MEMO>rent</STMTTRN>"))
    as (st_on & st_off & Hon & Hoff & _ & _ & Hl).
  exists st_on, st_off. split; [exact Hon|]. split; [exact Hoff|].
  assert (Hlines : file_lines (fout st_on)
                   = [lit "!Type:Bank"; lit "D11/28/2025"; lit "P(unknown)";
                      lit "Mrent"; lit "T5"; lit "C*"; lit "^"]).
  { vm_compute in Hon. injection Hon as <-. vm_compute. reflexivity. }
  split; [exact Hlines|]. rewrite Hl, Hlines; [vm_compute; reflexivity|].
  intros bs Hin _. vm_compute in Hin. destruct Hin as [<-|[]].
  split; vm_compute; intuition discriminate.
Defined.

(** ** Options and file names *)

Lemma strrchr_None c : forall s, strrchr s c = None <-> ~ In c s.
Proof.
  induction s as [|x s IH]; simpl; [tauto|].
  destruct (strrchr s c) eqn:E.
  - split; [discriminate|]. intro H. exfalso.
    assert (Hs : ~ In c s) by tauto. apply IH in Hs. discriminate Hs.
  - destruct (Ascii.eqb_spec x c) as [->|Hx].
    + split; [discriminate | tauto].
    + split; [|reflexivity]. intros _ [H|H]; [congruence|].
      now apply IH in H.
Qed.

Lemma strrchr_Some c : forall s p,
  strrchr s c = Some p ->
  exists stem ext, s = stem ++ c :: ext /\ ~ In c ext /\ p = c :: ext.
Proof.
  induction s as [|x s IH]; intros p H; [discriminate|]. simpl in H.
  destruct (strrchr s c) as [p'|] eqn:E.
  - injection H as <-. destruct (IH p' eq_refl) as (stem & ext & -> & He & ->).
    now exists (x :: stem), ext.
  - destruct (Ascii.eqb_spec x c) as [->|Hx]; [|discriminate].
    injection H as <-. apply strrchr_None in E. now exists [], s.
Qed.

Lemma strncat_field_Some dest src n :
  length dest + length (firstn n src) + 1 <= MAX_FIELD ->
  strncat_field dest src n = Some (dest ++ firstn n src).
Proof.
  intro H. unfold strncat_field.
  now destruct (Nat.leb_spec (length dest + length (firstn n src) + 1) MAX_FIELD);
    [|lia].
Qed.

Lemma strncat_field_inv dest src n r :
  strncat_field dest src n = Some r -> r = dest ++ firstn n src.
Proof.
  unfold strncat_field. destruct (_ <=? _); [|discriminate]. now intros [= <-].
Qed.

Lemma input_name_has_dot name inName :
  input_name name = Some inName -> In DOT inName.
Proof.
  unfold input_name. destruct (strchr name DOT) as [p|] eqn:E.
  - intros [= <-]. destruct (strchr_None DOT name) as [_ H].
    destruct (in_dec ascii_dec DOT name) as [Hin|Hn]; [exact Hin|].
    apply H in Hn. congruence.
  - intro H. apply strncat_field_inv in H. subst inName.
    apply in_or_app. right. cbv. tauto.
Qed.

Lemma output_name_no_internal_error inName outFileName :
  In DOT inName -> output_name inName outFileName <> Some None.
Proof.
  intro Hdot. unfold output_name. destruct (is_empty outFileName).
  - unfold strncpy_field. destruct (_ <? _); [|discriminate].
    destruct (strrchr inName DOT) as [cp|] eqn:E.
    + destruct (strncat_field _ _ _); discriminate.
    + apply strrchr_None in E. contradiction.
  - destruct (strchr outFileName DOT).
    + discriminate.
    + destruct (strncat_field _ _ _); discriminate.
Qed.

(** X18: the input name gets the extension ".qfx" exactly when it holds
    no dot anywhere, be it in a directory part ("./data" stays as it
    is); the name is otherwise used as given. *)
Theorem input_name_rule name :
  length name + 5 <= MAX_FIELD ->
  (In DOT name -> input_name name = Some name) /\
  (~ In DOT name -> input_name name = Some (name ++ lit ".qfx")).
Proof.
  intro Hlen. unfold input_name. split; intro H.
  - destruct (strchr name DOT) eqn:E; [reflexivity|].
    apply strchr_None in E. contradiction.
  - apply strchr_None in H. rewrite H.
    rewrite strncat_field_Some; [reflexivity|].
    change (length (firstn 5 (lit ".qfx"))) with 4. lia.
Qed.

Lemma input_name_rule_witness :
  length (lit "./data") + 5 <= MAX_FIELD /\
  (In DOT (lit "./data") -> input_name (lit "./data") = Some (lit "./data")) /\
  (~ In DOT (lit "./data") ->
   input_name (lit "./data") = Some (lit "./data" ++ lit ".qfx")).
Proof.
  assert (H : length (lit "./data") + 5 <= MAX_FIELD)
    by (apply Nat.leb_le; reflexivity).
  split; [exact H|]. apply (input_name_rule (lit "./data") H).
Defined.

(** X19: an output name given with -o gets the extension ".qif" exactly
    when it holds no dot; without -o the output name is the input name
    cut at its last dot (the dot of a directory part if the file part
    has none) followed by ".qif". *)
Theorem output_name_rule inName outFileName :
  length inName + 5 <= MAX_FIELD -> length outFileName + 5 <= MAX_FIELD ->
  (outFileName <> [] -> In DOT outFileName ->
   output_name inName outFileName = Some (Some outFileName)) /\
  (outFileName <> [] -> ~ In DOT outFileName ->
   output_name inName outFileName
   = Some (Some (outFileName ++ lit ".qif"))) /\
  (forall stem ext,
      outFileName = [] -> inName = stem ++ DOT :: ext -> ~ In DOT ext ->
      output_name inName outFileName = Some (Some (stem ++ lit ".qif"))).
Proof.
  intros Hin Hout. unfold output_name. split; [|split].
  - intros Hne Hdot. apply is_empty_false in Hne. rewrite Hne.
    destruct (strchr outFileName DOT) eqn:E; [reflexivity|].
    apply strchr_None in E. contradiction.
  - intros Hne Hdot. apply is_empty_false in Hne. rewrite Hne.
    apply strchr_None in Hdot. rewrite Hdot.
    rewrite strncat_field_Some; [reflexivity|].
    change (length (firstn 5 (lit ".qif"))) with 4. lia.
  - intros stem ext -> -> Hext. cbn [is_empty].
    unfold strncpy_field.
    destruct (Nat.ltb_spec (length (stem ++ DOT :: ext)) (MAX_FIELD - 1));
      [|lia].
    destruct (strrchr (stem ++ DOT :: ext) DOT) as [cp|] eqn:E.
    + apply strrchr_Some in E as (stem' & ext' & Heq & Hext' & ->).
      assert (Hs : stem' = stem /\ ext' = ext).
      { clear - Heq Hext Hext'. revert stem' Heq.
        induction stem as [|a stem IH]; intros [|b stem'] Heq.
        - now injection Heq as ->.
        - simpl in Heq. injection Heq as <- ->. exfalso. apply Hext.
          apply in_or_app. right. now left.
        - simpl in Heq. injection Heq as -> <-. exfalso. apply Hext'.
          apply in_or_app. right. now left.
        - simpl in Heq. injection Heq as -> Heq.
          destruct (IH stem' Heq) as [-> ->]. auto. }
      destruct Hs as [-> ->].
      replace (length (stem ++ DOT :: ext) - length (DOT :: ext))
        with (length stem) by (rewrite length_app; lia).
      rewrite firstn_app, Nat.sub_diag, firstn_all. cbn [firstn].
      rewrite app_nil_r.
      rewrite strncat_field_Some; [reflexivity|].
      change (length (firstn 5 (lit ".qif"))) with 4.
      rewrite length_app in Hin. cbn [length] in Hin. lia.
    + apply strrchr_None in E. exfalso. apply E.
      apply in_or_app. right. now left.
Qed.

Lemma output_name_rule_witness :
  (length (lit "bank.2025.qfx") + 5 <= MAX_FIELD /\
   length (@nil ascii) + 5 <= MAX_FIELD) /\
  output_name (lit "bank.2025.qfx") [] = Some (Some (lit "bank.2025" ++ lit ".qif")).
Proof.
  assert (H1 : length (lit "bank.2025.qfx") + 5 <= MAX_FIELD)
    by (apply Nat.leb_le; reflexivity).
  assert (H2 : length (@nil ascii) + 5 <= MAX_FIELD)
    by (apply Nat.leb_le; reflexivity).
  split; [split; assumption|].
  destruct (output_name_rule (lit "bank.2025.qfx") [] H1 H2) as (_ & _ & H3).
  apply (H3 (lit "bank.2025") (lit "qfx")).
  - reflexivity.
  - reflexivity.
  - vm_compute. intuition discriminate.
Defined.

(** ** The option loop *)

Lemma option_case_effect l opt optarg :
  let l' := option_case l opt optarg in
  usageError l' = usageError l || negb (known_option opt) /\
  memoFlag (options l')
  = memoFlag (options l) || Ascii.eqb opt (ascii_of_N 109) /\
  verbosity (options l')
  = (verbosity (options l)
     + (if Ascii.eqb opt (ascii_of_N 118) then 1 else 0)
     - (if Ascii.eqb opt (ascii_of_N 113) then 1 else 0))%Z /\
  (inFileName l', inTerminated l')
  = (if Ascii.eqb opt (ascii_of_N 105)
     then (firstn (MAX_FIELD - 1) optarg, length optarg <? MAX_FIELD - 1)
     else (inFileName l, inTerminated l)) /\
  (outFileName l', outTerminated l')
  = (if Ascii.eqb opt (ascii_of_N 111)
     then (firstn (MAX_FIELD - 1) optarg, length optarg <? MAX_FIELD - 1)
     else (outFileName l, outTerminated l)).
Proof.
  cbv zeta. unfold option_case, strncpy.
  remember (MAX_FIELD - 1) as bound eqn:Hb. clear Hb.
  destruct (Ascii.eqb_spec opt (ascii_of_N 105)) as [->|Hi].
  { cbn. rewrite !orb_false_r. repeat split; auto; lia. }
  destruct (Ascii.eqb_spec opt (ascii_of_N 111)) as [->|Ho].
  { cbn. rewrite !orb_false_r. repeat split; auto; lia. }
  destruct (Ascii.eqb_spec opt (ascii_of_N 109)) as [->|Hm].
  { cbn. rewrite orb_false_r, orb_true_r. repeat split; auto; lia. }
  destruct (Ascii.eqb_spec opt (ascii_of_N 113)) as [->|Hq].
  { cbn. rewrite !orb_false_r. repeat split; auto; lia. }
  destruct (Ascii.eqb_spec opt (ascii_of_N 118)) as [->|Hv].
  { cbn. rewrite !orb_false_r. repeat split; auto; lia. }
  cbn [usageError options inFileName outFileName inTerminated outTerminated
         orb].
  assert (Hk : known_option opt = false).
  { unfold known_option. cbn [lit list_ascii_of_string existsb].
    destruct (Ascii.eqb_spec opt "i"); [contradiction|].
    destruct (Ascii.eqb_spec opt "o"); [contradiction|].
    destruct (Ascii.eqb_spec opt "m"); [contradiction|].
    destruct (Ascii.eqb_spec opt "q"); [contradiction|].
    destruct (Ascii.eqb_spec opt "v"); [contradiction|]. reflexivity. }
  rewrite Hk, orb_true_r, orb_false_r. repeat split; auto; lia.
Qed.

Lemma option_loop_cons l r rest :
  option_loop l (r :: rest)
  = option_loop (option_case l (return_value r) (optarg_of r)) rest.
Proof. reflexivity. Qed.

Lemma option_loop_flags : forall results l0,
  usageError (option_loop l0 results)
  = usageError l0 || existsb is_usage_error results /\
  memoFlag (options (option_loop l0 results))
  = memoFlag (options l0)
    || existsb (fun r => Ascii.eqb (return_value r) (ascii_of_N 109)) results /\
  verbosity (options (option_loop l0 results))
  = (verbosity (options l0) + count_option (ascii_of_N 118) results
     - count_option (ascii_of_N 113) results)%Z.
Proof.
  unfold count_option, is_usage_error.
  induction results as [|r rest IH]; intro l0.
  - cbn. rewrite !orb_false_r. repeat split; lia.
  - rewrite option_loop_cons.
    destruct (option_case_effect l0 (return_value r) (optarg_of r))
      as (Eu & Em & Ev & _).
    destruct (IH (option_case l0 (return_value r) (optarg_of r)))
      as (Hu & Hm & Hv).
    rewrite Hu, Hm, Hv, Eu, Em, Ev. cbn [existsb filter].
    rewrite !orb_assoc. split; [reflexivity|]. split; [reflexivity|].
    destruct (Ascii.eqb (return_value r) (ascii_of_N 118)),
      (Ascii.eqb (return_value r) (ascii_of_N 113)); cbn [length]; lia.
Qed.

(** [getopt_long] writes a diagnostic only with a result that the
    switch takes as a usage error. *)
Lemma getopt_stderr_nil : forall results,
  existsb is_usage_error results = false -> getopt_stderr results = [].
Proof.
  induction results as [|r rest IH]; [reflexivity|].
  cbn [existsb]. intro H. apply orb_false_iff in H as [Hr H].
  destruct r; try discriminate Hr; now apply IH.
Qed.

Section LastWins.

Variable letter : ascii.
Variable A : Type.
Variable get : Locals -> A.
Variable value : cstring -> A.
Hypothesis get_effect : forall l opt optarg,
  get (option_case l opt optarg)
  = if Ascii.eqb opt letter then value optarg else get l.

Lemma option_loop_keeps : forall results l0,
  (forall r, In r results -> return_value r <> letter) ->
  get (option_loop l0 results) = get l0.
Proof.
  induction results as [|r rest IH]; intros l0 Hno; [reflexivity|].
  rewrite option_loop_cons, IH, get_effect.
  - destruct (Ascii.eqb_spec (return_value r) letter) as [Heq|];
      [|reflexivity].
    exfalso. apply (Hno r); [now left | exact Heq].
  - intros r' Hr'. apply Hno. now right.
Qed.

Lemma option_loop_last : forall before l0 r0 rest,
  return_value r0 = letter ->
  (forall r, In r rest -> return_value r <> letter) ->
  get (option_loop l0 (before ++ r0 :: rest)) = value (optarg_of r0).
Proof.
  induction before as [|r before IH]; intros l0 r0 rest Hr0 Hno.
  - cbn [app]. rewrite option_loop_cons, option_loop_keeps by exact Hno.
    now rewrite get_effect, Hr0, Ascii.eqb_refl.
  - cbn [app]. rewrite option_loop_cons. now apply IH.
Qed.

End LastWins.

(** X20: what the option loop leaves: the verbosity is 1 plus the
    number of -v minus the number of -q, memos are included if and only
    if -m occurs, a usage error is noted if and only if some result of
    getopt_long is not one of the five letters, and of several -i (or
    -o) the last one gives the name, which is empty without any.  The
    name is the first MAX_FIELD - 1 characters of the argument, and its
    buffer is left without terminator when the argument has that many
    characters or more. *)
Theorem option_loop_spec results :
  let l := option_loop initial_locals results in
  verbosity (options l)
  = (1 + count_option (ascii_of_N 118) results
     - count_option (ascii_of_N 113) results)%Z /\
  (memoFlag (options l) = true <->
   exists r, In r results /\ return_value r = ascii_of_N 109) /\
  (usageError l = true <->
   exists r, In r results /\ known_option (return_value r) = false) /\
  (forall before optarg rest,
      results = before ++ Input optarg :: rest ->
      (forall r, In r rest -> return_value r <> ascii_of_N 105) ->
      inFileName l = firstn (MAX_FIELD - 1) optarg /\
      inTerminated l = (length optarg <? MAX_FIELD - 1)) /\
  (forall before optarg rest,
      results = before ++ Output optarg :: rest ->
      (forall r, In r rest -> return_value r <> ascii_of_N 111) ->
      outFileName l = firstn (MAX_FIELD - 1) optarg /\
      outTerminated l = (length optarg <? MAX_FIELD - 1)) /\
  ((forall r, In r results -> return_value r <> ascii_of_N 105) ->
   inFileName l = [] /\ inTerminated l = true) /\
  ((forall r, In r results -> return_value r <> ascii_of_N 111) ->
   outFileName l = [] /\ outTerminated l = true).
Proof.
  cbv zeta.
  destruct (option_loop_flags results initial_locals) as (Hu & Hm & Hv).
  cbn [usageError memoFlag verbosity options initial_locals orb] in Hu, Hm, Hv.
  pose (value := fun optarg : cstring =>
                   (firstn (MAX_FIELD - 1) optarg,
                    length optarg <? MAX_FIELD - 1)).
  assert (Gi : forall l0 opt optarg,
             (fun l => (inFileName l, inTerminated l))
               (option_case l0 opt optarg)
             = if Ascii.eqb opt (ascii_of_N 105) then value optarg
               else (fun l => (inFileName l, inTerminated l)) l0)
    by (intros l0 opt optarg; apply option_case_effect).
  assert (Go : forall l0 opt optarg,
             (fun l => (outFileName l, outTerminated l))
               (option_case l0 opt optarg)
             = if Ascii.eqb opt (ascii_of_N 111) then value optarg
               else (fun l => (outFileName l, outTerminated l)) l0)
    by (intros l0 opt optarg; apply option_case_effect).
  split; [exact Hv|]. split; [|split; [|split; [|split; [|split]]]].
  - rewrite Hm, existsb_exists. split; intros (r & Hin & Hr); exists r;
      (split; [exact Hin|]).
    + now apply Ascii.eqb_eq.
    + now apply Ascii.eqb_eq.
  - rewrite Hu, existsb_exists. unfold is_usage_error.
    split; intros (r & Hin & Hr); exists r; (split; [exact Hin|]).
    + now apply negb_true_iff.
    + now apply negb_true_iff.
  - intros before optarg rest -> Hno.
    pose proof (option_loop_last _ _ _ value Gi before initial_locals
                  (Input optarg) rest eq_refl Hno) as H.
    now injection H.
  - intros before optarg rest -> Hno.
    pose proof (option_loop_last _ _ _ value Go before initial_locals
                  (Output optarg) rest eq_refl Hno) as H.
    now injection H.
  - intro Hno.
    pose proof (option_loop_keeps _ _ _ value Gi results initial_locals Hno)
      as H.
    now injection H.
  - intro Hno.
    pose proof (option_loop_keeps _ _ _ value Go results initial_locals Hno)
      as H.
    now injection H.
Qed.

(** ** The ways out of [main] *)

Lemma main_inv prog results env out :
  main prog results env = Some out ->
  main_path prog env (option_loop initial_locals results) out.
Proof.
  unfold main.
  destruct (option_loop_flags results initial_locals) as (Hflag & _).
  cbn [usageError initial_locals orb] in Hflag.
  set (l := option_loop initial_locals results) in *. intro H.
  destruct (usageError l) eqn:Eu.
  { injection H as <-. now constructor. }
  rewrite (getopt_stderr_nil results) in H by now symmetry.
  cbn [app] in H.
  destruct (is_empty (inFileName l)) eqn:Ei.
  { injection H as <-. apply is_empty_true in Ei. now constructor. }
  apply is_empty_false in Ei.
  destruct (inTerminated l); [cbn [negb] in H | discriminate].
  destruct (input_name (inFileName l)) as [inName|] eqn:En; [|discriminate].
  destruct (outTerminated l || existsb (Ascii.eqb DOT) (outFileName l));
    [|discriminate].
  destruct (output_name inName (outFileName l)) as [[outName|]|] eqn:Eo;
    [| |discriminate].
  - destruct (read_file_all env inName) as [bytes|] eqn:Er.
    + destruct (outTerminated l); [cbn [negb] in H | discriminate].
      destruct (fopen_w env outName) eqn:Ew; cbn [negb] in H.
      * destruct (convert (options l) bytes) as [st|] eqn:Ec; [|discriminate].
        injection H as <-. now apply (path_done _ _ _ inName outName bytes st).
      * injection H as <-.
        now apply (path_unwritable _ _ _ inName outName bytes).
    + injection H as <-. now apply (path_unreadable _ _ _ inName outName).
  - injection H as <-. now apply (path_internal _ _ _ inName).
Qed.

Lemma main_path_not_internal prog env l out :
  main_path prog env l out -> returned out <> (-3)%Z.
Proof.
  intros [ | | inName Hu Hi Hn Ho | | | ]; cbn [returned]; try discriminate.
  exfalso. apply input_name_has_dot in Hn.
  now apply (output_name_no_internal_error inName (outFileName l)).
Qed.

(** X21: whenever [main] returns, it returns 0, -1, -2, -4 or -5, never
    the -3 of its internal error, since the input name always holds a
    dot when the output name is derived from it.  The output file is
    opened exactly when it returns 0, the input file is read exactly
    when it returns 0, -4 or -5, and any other return value comes with
    a message on stderr and nothing on stdout. *)
Theorem main_return_values prog results env out :
  main prog results env = Some out ->
  In (returned out) [0; -1; -2; -4; -5]%Z /\
  (returned out = 0%Z <-> output_file out <> None) /\
  (In (returned out) [0; -4; -5]%Z <-> input_file out <> None) /\
  (returned out <> 0%Z -> printed out = [] /\ stderr out <> []).
Proof.
  intro H. apply main_inv in H as Hp.
  pose proof (main_path_not_internal _ _ _ _ Hp) as H3.
  destruct Hp; cbn [returned output_file input_file printed stderr] in *;
    try congruence.
  - split; [cbn; tauto|].
    split; [split; [discriminate | intro Hx; now elim Hx]|].
    split; [split; [cbn; intuition discriminate | intro Hx; now elim Hx]|].
    intros _. split; [reflexivity|].
    intro Hx. apply app_eq_nil in Hx as [_ Hx]. discriminate Hx.
  - split; [cbn; tauto|].
    split; [split; [discriminate | intro Hx; now elim Hx]|].
    split; [split; [cbn; intuition discriminate | intro Hx; now elim Hx]|].
    intros _. split; [reflexivity | discriminate].
  - split; [cbn; tauto|].
    split; [split; [discriminate | intro Hx; now elim Hx]|].
    split; [split; [discriminate | intros _; cbn; tauto]|].
    intros _. split; [reflexivity | discriminate].
  - split; [cbn; tauto|].
    split; [split; [discriminate | intro Hx; now elim Hx]|].
    split; [split; [discriminate | intros _; cbn; tauto]|].
    intros _. split; [reflexivity | discriminate].
  - split; [cbn; tauto|].
    split; [split; [discriminate | reflexivity]|].
    split; [split; [discriminate | intros _; cbn; tauto]|].
    intro Hz. now elim Hz.
Qed.

Lemma main_return_values_witness :
  let env := {| read_file_all := fun _ => None; fopen_w := fun _ => true |} in
  let out := {| returned := -4;
                stderr := usage (lit "Error reading input file") None;
                printed := []; input_file := Some (lit "bank.qfx");
                output_file := None |} in
  main (lit "qxf2qif") [Input (lit "bank")] env = Some out /\
  In (returned out) [0; -1; -2; -4; -5]%Z /\
  (returned out = 0%Z <-> output_file out <> None) /\
  (In (returned out) [0; -4; -5]%Z <-> input_file out <> None) /\
  (returned out <> 0%Z -> printed out = [] /\ stderr out <> []).
Proof.
  cbv zeta. split; [reflexivity|].
  apply (main_return_values (lit "qxf2qif")
           [Input (lit "bank")]
           {| read_file_all := fun _ => None; fopen_w := fun _ => true |}).
  reflexivity.
Defined.

(** X22: a usage error comes first: if some result of getopt_long is
    not one of the five option letters, [main] returns -1 whatever the
    other options are, without reading the input or opening the output;
    stderr then holds the diagnostics that getopt_long has written,
    followed by the usage text, and stdout nothing. *)
Theorem usage_error_first prog results env r :
  In r results -> known_option (return_value r) = false ->
  main prog results env
  = Some {| returned := -1;
            stderr := getopt_stderr results ++ usage prog None;
            printed := []; input_file := None; output_file := None |}.
Proof.
  intros Hin Hr. unfold main.
  destruct (option_loop_flags results initial_locals) as (Hu & _).
  replace (usageError (option_loop initial_locals results)) with true;
    [reflexivity|].
  rewrite Hu. cbn [usageError initial_locals orb]. symmetry.
  apply existsb_exists. exists r. split; [exact Hin|].
  unfold is_usage_error. now rewrite Hr.
Qed.

Lemma usage_error_first_witness :
  let diagnostic := lit "qxf2qif: invalid option -- 'x'" ++ [LF] in
  let results := [Input (lit "bank.qfx"); Problem diagnostic] in
  let env := {| read_file_all := fun _ => Some []; fopen_w := fun _ => true |} in
  (In (Problem diagnostic) results /\
   known_option (return_value (Problem diagnostic)) = false) /\
  main (lit "qxf2qif") results env
  = Some {| returned := -1;
            stderr := diagnostic :: usage (lit "qxf2qif") None;
            printed := []; input_file := None; output_file := None |}.
Proof.
  cbv zeta. split.
  - split; [right; left; reflexivity | reflexivity].
  - apply (usage_error_first (lit "qxf2qif")
             [Input (lit "bank.qfx");
              Problem (lit "qxf2qif: invalid option -- 'x'" ++ [LF])]
             {| read_file_all := fun _ => Some []; fopen_w := fun _ => true |}
             (Problem (lit "qxf2qif: invalid option -- 'x'" ++ [LF]))).
    + right; left; reflexivity.
    + reflexivity.
Defined.



Lemma trace_of_quiet cfg recs :
  (verbosity cfg < 2)%Z -> flat_map (trace_of cfg) recs = [].
Proof.
  intro H. unfold trace_of.
  destruct (Z.leb_spec 2 (verbosity cfg)) as [L|L]; [lia|].
  induction recs as [|bs recs IH]; [reflexivity|].
  cbn [flat_map]. now rewrite andb_false_r.
Qed.

(** X24: when [main] returns 0 it has read the input under the name
    given by the extension rule and written, to the output file, the
    header and the record blocks of that input.  The suppressed-memo
    warning goes to stderr whatever the verbosity; stdout stays empty at
    verbosity 0 or less, and at verbosity 1 holds the three summary
    lines, the last of which gives the number of emitted records. *)
Theorem main_success prog results env out l :
  main prog results env = Some out ->
  returned out = 0%Z ->
  option_loop initial_locals results = l ->
  exists inName outName bytes,
    input_name (inFileName l) = Some inName /\
    output_name inName (outFileName l) = Some (Some outName) /\
    read_file_all env inName = Some bytes /\
    output_file out
    = Some (outName,
            header :: flat_map (output_of (options l)) (records (c_str bytes))) /\
    stderr out
    = (if existsb (suppresses (options l)) (records (c_str bytes))
       then memo_warning else []) /\
    ((verbosity (options l) <= 0)%Z -> printed out = []) /\
    (verbosity (options l) = 1%Z ->
     printed out
     = [lit "Input File            : " ++ inName ++ [LF];
        lit "Output File           : " ++ outName ++ [LF];
        lit "Number of Transactions: "
        ++ decimal (Z.of_nat (length (filter emitted (records (c_str bytes)))))
        ++ [LF]]).
Proof.
  intros H Hz Hl. apply main_inv in H as Hp. rewrite Hl in Hp.
  destruct Hp as [ | | | | | inName outName bytes st Hu Hi Hn Ho Hr Hw Hc];
    cbn [returned] in Hz; try discriminate Hz.
  exists inName, outName, bytes.
  rewrite convert_run in Hc. injection Hc as <-.
  cbn [output_file stderr printed]. unfold summary.
  rewrite run_fout, run_warning, run_stdout, run_count.
  replace (fout start_state) with [header] by reflexivity.
  cbn [app printMemoWarning stdout numTransactions start_state fprintf
         init_state orb Z.add].
  repeat (split; [assumption || reflexivity|]).
  split.
  - intro Hv. rewrite trace_of_quiet by lia.
    destruct (Z.leb_spec 1 (verbosity (options l))); [lia | reflexivity].
  - intro Hv. rewrite trace_of_quiet by lia. rewrite Hv. reflexivity.
Qed.

Lemma main_success_witness :
  let results := [Input (lit "bank"); Quiet] in
  let env := {| read_file_all :=
                  fun _ => Some (lit "<STMTTRN><TRNAMT>5<MEMO>rent</STMTTRN>");
                fopen_w := fun _ => true |} in
  let l := {| inFileName := lit "bank"; inTerminated := true;
              outFileName := []; outTerminated := true;
              usageError := false;
              options := {| memoFlag := false; verbosity := 0 |} |} in
  exists out,
    (main (lit "qxf2qif") results env = Some out /\
     returned out = 0%Z /\
     option_loop initial_locals results = l) /\
    output_file out
    = Some (lit "bank.qif",
            [header; line "D" []; line "P" (lit "(unknown)");
             line "T" (lit "5"); line "C*" []; line "^" []]) /\
    stderr out = memo_warning /\
    printed out = [].
Proof.
  cbv zeta. eexists. split; [split; [reflexivity | split; reflexivity]|].
  destruct (main_success (lit "qxf2qif")
              [Input (lit "bank"); Quiet]
              {| read_file_all :=
                   fun _ => Some (lit "<STMTTRN><TRNAMT>5<MEMO>rent</STMTTRN>");
                 fopen_w := fun _ => true |}
              _ _ eq_refl eq_refl eq_refl)
    as (i & o & b & Hi & Ho & Hb & Hfile & Herr & Hq & _).
  vm_compute in Hi, Ho, Hb. injection Hi as <-. injection Ho as <-.
  injection Hb as <-.
  split; [|split].
  - rewrite Hfile. vm_compute. reflexivity.
  - rewrite Herr. vm_compute. reflexivity.
  - apply Hq. vm_compute. discriminate.
Defined.
